(** * gather(1): files matching a glob in the dependency closure of Go packages

    A shallow embedding of [gather.go] and of the parts of Go's standard
    library that it calls ([unicode/utf8] and [path/filepath] as they are
    on a Unix host since Go 1.19: [Match] validates the whole pattern,
    [Glob] checks the pattern first and bounds its depth), followed by the
    properties of the file-discovery pipeline.

    Go strings are byte sequences: they are modelled by [string], whose
    characters are the 256 values of [ascii].  Functions returning
    [(T, error)] return a [result T]; receivers that mutate their argument
    (the duplicate registry) take the old state and return the new one. *)

From Stdlib Require Import Ascii NArith.
From stdpp Require Import base option list strings sorting gmap.

(** ** Errors and results *)

(** A Go [error] value: the sentinel [filepath.ErrBadPattern], or an error
    made from a message ([errors.New], [fmt.Errorf], an error of the
    operating system or of the package provider). *)
Inductive error : Type :=
  | ErrBadPattern
  | ErrorString (msg : string).

Inductive result (A : Type) : Type :=
  | Ok (a : A)
  | Err (e : error).
Arguments Ok {A} a.
Arguments Err {A} e.

#[global] Instance result_ret : MRet result := fun A a => Ok a.
#[global] Instance result_bind : MBind result := fun A B f m =>
  match m with
  | Ok a => f a
  | Err e => Err e
  end.

(** ** Strings *)

Definition nl : string := String "010"%char "".
Definition tab : string := String "009"%char "".
Definition nul : string := String "000"%char "".

(** [strings.Contains s t]: [t] occurs in [s]. *)
Definition contains (s t : string) : Prop :=
  ∃ pre post : string, s = pre +:+ t +:+ post.

(** [strings.IndexByte(s, c) >= 0] *)
Fixpoint containsByte (c : ascii) (s : string) : bool :=
  match s with
  | "" => false
  | String a s' => Ascii.eqb a c || containsByte c s'
  end.

(** [s[n:]] (for [n <= len(s)]) *)
Fixpoint skip (n : nat) (s : string) : string :=
  match n, s with
  | S n', String _ s' => skip n' s'
  | _, _ => s
  end.

Definition isEmpty (s : string) : bool :=
  match s with "" => true | _ => false end.

(** [len(s) > 0 && s[0] == c] *)
Definition startsWith (c : ascii) (s : string) : bool :=
  match s with String a _ => Ascii.eqb a c | "" => false end.

(** ** unicode/utf8 *)

Module utf8.

Definition RuneError : N := 0xFFFD%N.

(** The tables [first] and [acceptRanges]: for a leading byte, the length
    of the encoding and the range accepted for the second byte; [None] for
    the bytes that start no encoding. (ASCII is handled before.) *)
Definition first (s0 : N) : option (nat * N * N) :=
  if ((0xC2 <=? s0) && (s0 <=? 0xDF))%N then Some (2, 0x80%N, 0xBF%N)
  else if (s0 =? 0xE0)%N then Some (3, 0xA0%N, 0xBF%N)
  else if ((0xE1 <=? s0) && (s0 <=? 0xEC))%N then Some (3, 0x80%N, 0xBF%N)
  else if (s0 =? 0xED)%N then Some (3, 0x80%N, 0x9F%N)
  else if ((0xEE <=? s0) && (s0 <=? 0xEF))%N then Some (3, 0x80%N, 0xBF%N)
  else if (s0 =? 0xF0)%N then Some (4, 0x90%N, 0xBF%N)
  else if ((0xF1 <=? s0) && (s0 <=? 0xF3))%N then Some (4, 0x80%N, 0xBF%N)
  else if (s0 =? 0xF4)%N then Some (4, 0x80%N, 0x8F%N)
  else None.

(** A continuation byte outside [lo, hi]. *)
Definition outside (b lo hi : N) : bool := ((b <? lo) || (hi <? b))%N.

(** [func DecodeRuneInString(s string) (rune, int)] *)
Definition DecodeRuneInString (s : string) : N * nat :=
  match s with
  | "" => (RuneError, 0)
  | String c0 t1 =>
      let s0 := N_of_ascii c0 in
      if (s0 <? 0x80)%N then (s0, 1)
      else
        match first s0 with
        | None => (RuneError, 1)
        | Some (sz, lo, hi) =>
            if String.length s <? sz then (RuneError, 1)
            else
              match t1 with
              | "" => (RuneError, 1)
              | String c1 t2 =>
                  let s1 := N_of_ascii c1 in
                  if outside s1 lo hi then (RuneError, 1)
                  else if sz <=? 2 then
                    (N.lor (N.shiftl (N.land s0 0x1F) 6) (N.land s1 0x3F), 2)
                  else
                    match t2 with
                    | "" => (RuneError, 1)
                    | String c2 t3 =>
                        let s2 := N_of_ascii c2 in
                        if outside s2 0x80 0xBF then (RuneError, 1)
                        else if sz <=? 3 then
                          (N.lor (N.shiftl (N.land s0 0x0F) 12)
                             (N.lor (N.shiftl (N.land s1 0x3F) 6)
                                (N.land s2 0x3F)), 3)
                        else
                          match t3 with
                          | "" => (RuneError, 1)
                          | String c3 _ =>
                              let s3 := N_of_ascii c3 in
                              if outside s3 0x80 0xBF then (RuneError, 1)
                              else
                                (N.lor (N.shiftl (N.land s0 0x07) 18)
                                   (N.lor (N.shiftl (N.land s1 0x3F) 12)
                                      (N.lor (N.shiftl (N.land s2 0x3F) 6)
                                         (N.land s3 0x3F))), 4)
                          end
                    end
              end
        end
  end.

End utf8.

(** ** The file system, as [path/filepath] sees it

    [Glob] reaches the disk through three calls only; a file system is what
    they answer.  No coherence between the three is assumed here; the
    properties that need some say so. *)
Record FS : Type := {
  (** [os.Lstat(name)] returns no error *)
  Lstat : string → bool;
  (** [os.Stat(name)]: [None] for an error, else [fi.IsDir()] *)
  Stat : string → option bool;
  (** [os.Open(name)] then [d.Readdirnames(-1)]: [None] when the directory
      cannot be opened, else the names read, in directory order *)
  Readdirnames : string → option (list string)
}.

(** ** path/filepath on Unix: the separator is '/', volume names are empty,
    '\' escapes in patterns *)

Module filepath.

Definition Separator : ascii := "/"%char.
Definition IsPathSeparator (c : ascii) : bool := Ascii.eqb c Separator.

(** [path[:i+1], path[i+1:]] for [i] the index of the last separator of
    [path], or -1 when there is none: the backwards scan
    [for i >= 0 && !os.IsPathSeparator(path[i]) { i-- }]. *)
Fixpoint cutLastSep (path : string) : string * string :=
  match path with
  | "" => ("", "")
  | String c rest =>
      match cutLastSep rest with
      | ("", file) =>
          if IsPathSeparator c then (String c "", file) else ("", String c file)
      | (dir, file) => (String c dir, file)
      end
  end.

(** [for len(path) > 0 && os.IsPathSeparator(path[len(path)-1])
      { path = path[0 : len(path)-1] }] *)
Fixpoint stripTrailingSeps (path : string) : string :=
  match path with
  | "" => ""
  | String c rest =>
      match stripTrailingSeps rest with
      | "" => if IsPathSeparator c then "" else String c ""
      | rest' => String c rest'
      end
  end.

(** [func Split(path string) (dir, file string)] *)
Definition Split (path : string) : string * string := cutLastSep path.

(** [func Base(path string) string] *)
Definition Base (path : string) : string :=
  if isEmpty path then "."
  else
    (* Strip trailing slashes, then find the last element. *)
    let path := stripTrailingSeps path in
    let path := snd (cutLastSep path) in
    (* If empty now, it had only slashes. *)
    if isEmpty path then String Separator "" else path.

(** *** Clean *)

(** The output buffer of [Clean] (a [lazybuf]: its first [w] bytes are the
    string [out]) and the index [dotdot] where [..] must stop. *)
Record cleaner : Type := Cleaner { out : string; dotdot : nat }.

Definition append (c : ascii) (st : cleaner) : cleaner :=
  Cleaner (out st +:+ String c "") (dotdot st).

(** [out.w--; for out.w > dotdot && !os.IsPathSeparator(out.index(out.w))
      { out.w-- }], on the buffer read from its end: [rbuf] is the reverse
    of the bytes still kept. *)
Fixpoint backtrack (rbuf : string) (dotdot : nat) : string :=
  match rbuf with
  | "" => ""
  | String c rbuf' =>
      if (dotdot <? String.length rbuf') && negb (IsPathSeparator c)
      then backtrack rbuf' dotdot
      else rbuf'
  end.

(** The [..] element. *)
Definition dotdotElem (rooted : bool) (st : cleaner) : cleaner :=
  if dotdot st <? String.length (out st) then
    (* can backtrack *)
    Cleaner (String.rev (backtrack (String.rev (out st)) (dotdot st)))
      (dotdot st)
  else if negb rooted then
    (* cannot backtrack, but not rooted, so append .. element. *)
    let st := if 0 <? String.length (out st) then append Separator st else st in
    let st := append "."%char (append "."%char st) in
    Cleaner (out st) (String.length (out st))
  else st.

(** add slash if needed *)
Definition addSlash (rooted : bool) (st : cleaner) : cleaner :=
  let w := String.length (out st) in
  if (rooted && negb (w =? 1)) || (negb rooted && negb (w =? 0))
  then append Separator st else st.

(** The loop [for r < n] of [Clean] over the bytes from [r] on.  [inElem]
    holds inside the inner loop that copies a real path element. *)
Fixpoint cleanLoop (rooted inElem : bool) (path : string) (st : cleaner)
  : cleaner :=
  match path with
  | "" => st
  | String c rest =>
      if inElem then
        if IsPathSeparator c then cleanLoop rooted false rest st
        else cleanLoop rooted true rest (append c st)
      else
        let element :=
          cleanLoop rooted true rest (append c (addSlash rooted st)) in
        if IsPathSeparator c then
          (* empty path element *)
          cleanLoop rooted false rest st
        else if Ascii.eqb c "."
                && (isEmpty rest || startsWith Separator rest) then
          (* . element *)
          cleanLoop rooted false rest st
        else
          match rest with
          | String c' rest' =>
              if Ascii.eqb c "." && Ascii.eqb c' "."
                 && (isEmpty rest' || startsWith Separator rest')
              then
                (* .. element: remove to last separator *)
                cleanLoop rooted false rest' (dotdotElem rooted st)
              else element
          | "" => element
          end
  end.

(** [func Clean(path string) string] *)
Definition Clean (path : string) : string :=
  match path with
  | "" => "."
  | String c rest =>
      let rooted := IsPathSeparator c in
      let st :=
        if rooted
        then cleanLoop rooted false rest (Cleaner (String Separator "") 1)
        else cleanLoop rooted false path (Cleaner "" 0) in
      (* Turn empty string into "." *)
      if isEmpty (out st) then "." else out st
  end.

(** [func Join(elem ...string) string] *)
Fixpoint Join (elem : list string) : string :=
  match elem with
  | [] => ""
  | e :: rest =>
      if isEmpty e then Join rest
      else Clean (String.concat (String Separator "") elem)
  end.

(** *** Match *)

(** [func scanChunk(pattern string) (star bool, chunk, rest string)]:
    first the leading stars. *)
Fixpoint skipStars (pattern : string) : bool * string :=
  match pattern with
  | String c rest =>
      if Ascii.eqb c "*" then (true, snd (skipStars rest)) else (false, pattern)
  | "" => (false, "")
  end.

(** The loop [Scan] of [scanChunk]: [pattern[0:i], pattern[i:]] for [i]
    the index of the first star outside a range. *)
Fixpoint scan (inrange : bool) (pattern : string) : string * string :=
  match pattern with
  | "" => ("", "")
  | String c rest =>
      if Ascii.eqb c "\" then
        (* error check handled in matchChunk: bad pattern. *)
        match rest with
        | String c' rest' =>
            let (chunk, rest'') := scan inrange rest' in
            (String c (String c' chunk), rest'')
        | "" => (String c "", "")
        end
      else if Ascii.eqb c "[" then
        let (chunk, rest') := scan true rest in (String c chunk, rest')
      else if Ascii.eqb c "]" then
        let (chunk, rest') := scan false rest in (String c chunk, rest')
      else if Ascii.eqb c "*" && negb inrange then ("", pattern)
      else
        let (chunk, rest') := scan inrange rest in (String c chunk, rest')
  end.

Definition scanChunk (pattern : string) : bool * string * string :=
  let (star, pattern) := skipStars pattern in
  let (chunk, rest) := scan false pattern in
  (star, chunk, rest).

(** [func getEsc(chunk string) (r rune, nchunk string, err error)] *)
Definition getEsc (chunk : string) : result (N * string) :=
  if isEmpty chunk || startsWith "-" chunk || startsWith "]" chunk
  then Err ErrBadPattern
  else
    let unescaped :=
      if startsWith "\" chunk then Some (skip 1 chunk) else None in
    match unescaped with
    | Some "" => Err ErrBadPattern
    | _ =>
        let chunk := default chunk unescaped in
        let (r, n) := utf8.DecodeRuneInString chunk in
        if (r =? utf8.RuneError)%N && (n =? 1) then Err ErrBadPattern
        else
          let nchunk := skip n chunk in
          if isEmpty nchunk then Err ErrBadPattern else Ok (r, nchunk)
    end.

(** The loop that parses all ranges of a character class, after its ['[']
    and ['^']: whether [r] is in one of them, and the chunk after the [']'].
    Every turn consumes a byte of [chunk]; [fuel] bounds the turns, and more
    of it changes nothing (lemma [ranges_fuel]). *)
Fixpoint ranges (fuel : nat) (chunk : string) (r : N) (matched : bool)
  (nrange : nat) : result (bool * string) :=
  match fuel with
  | 0 => Err ErrBadPattern
  | S fuel' =>
      if startsWith "]" chunk && (0 <? nrange) then Ok (matched, skip 1 chunk)
      else
        '(lo, chunk) ← getEsc chunk;
        '(hi, chunk) ← (if startsWith "-" chunk then getEsc (skip 1 chunk)
                        else Ok (lo, chunk));
        ranges fuel' chunk r (matched || ((lo <=? r) && (r <=? hi))%N)
          (S nrange)
  end.

(** The loop [for len(chunk) > 0] of [matchChunk]; [failed] records whether
    the match has failed.  Every turn consumes a byte of [chunk]; [fuel]
    bounds the turns, and more of it changes nothing (lemma
    [matchChunkLoop_fuel]). *)
Fixpoint matchChunkLoop (fuel : nat) (chunk s : string) (failed : bool)
  : string * bool * option error :=
  match fuel with
  | 0 => ("", false, Some ErrBadPattern)
  | S fuel' =>
      match chunk with
      | "" => if failed then ("", false, None) else (s, true, None)
      | String c chunk1 =>
          let failed := failed || isEmpty s in
          (* the default case, on the byte [c0] *)
          let literal (c0 : ascii) (chunk' : string) :=
            if failed then matchChunkLoop fuel' chunk' s failed
            else
              matchChunkLoop fuel' chunk' (skip 1 s) (negb (startsWith c0 s)) in
          if Ascii.eqb c "[" then
            (* character class *)
            let (r, s) :=
              if failed then (0%N, s)
              else let (r, n) := utf8.DecodeRuneInString s in (r, skip n s) in
            (* possibly negated *)
            let negated := startsWith "^" chunk1 in
            let chunk2 := if negated then skip 1 chunk1 else chunk1 in
            (* parse all ranges *)
            match ranges (S (String.length chunk2)) chunk2 r false 0 with
            | Err e => ("", false, Some e)
            | Ok (matched, chunk3) =>
                matchChunkLoop fuel' chunk3 s (failed || eqb matched negated)
            end
          else if Ascii.eqb c "?" then
            if failed then matchChunkLoop fuel' chunk1 s failed
            else
              let (_, n) := utf8.DecodeRuneInString s in
              matchChunkLoop fuel' chunk1 (skip n s) (startsWith Separator s)
          else if Ascii.eqb c "\" then
            match chunk1 with
            | "" => ("", false, Some ErrBadPattern)
            | String c' chunk2 => literal c' chunk2
            end
          else literal c chunk1
      end
  end.

(** [func matchChunk(chunk, s string) (rest string, ok bool, err error)] *)
Definition matchChunk (chunk s : string) : string * bool * option error :=
  matchChunkLoop (S (String.length chunk)) chunk s false.

(** How the loop "Look for match skipping i+1 bytes" of [Match] ends. *)
Inductive skipped : Type :=
  | Found (t : string)     (* [name = t; continue Pattern] *)
  | Failed (e : error)     (* [return false, err] *)
  | NotFound.              (* the loop ran to its end *)

(** [for i := 0; i < len(name) && name[i] != Separator; i++], on [name[i:]];
    [last] is [len(pattern) == 0]. *)
Fixpoint skipping (chunk : string) (last : bool) (name : string) : skipped :=
  match name with
  | "" => NotFound
  | String c name' =>
      if IsPathSeparator c then NotFound
      else
        match matchChunk chunk name' with
        | (t, true, _) =>
            (* if we're the last chunk, make sure we exhausted the name *)
            if last && negb (isEmpty t) then skipping chunk last name'
            else Found t
        | (_, false, Some e) => Failed e
        | (_, false, None) => skipping chunk last name'
        end
  end.

(** "Before returning false with no error, check that the remainder of the
    pattern is syntactically valid."  Every turn consumes a byte of
    [pattern] (lemma [remainder_fuel]). *)
Fixpoint remainder (fuel : nat) (pattern : string) : result bool :=
  match fuel with
  | 0 => Err ErrBadPattern
  | S fuel' =>
      if isEmpty pattern then Ok false
      else
        let '(_, chunk, pattern) := scanChunk pattern in
        match matchChunk chunk "" with
        | (_, _, Some e) => Err e
        | (_, _, None) => remainder fuel' pattern
        end
  end.

(** The loop [Pattern] of [Match].  Every turn consumes a byte of
    [pattern]; [fuel] bounds the turns, and more of it changes nothing
    (lemma [matchLoop_fuel]). *)
Fixpoint matchLoop (fuel : nat) (pattern name : string) : result bool :=
  match fuel with
  | 0 => Err ErrBadPattern
  | S fuel' =>
      if isEmpty pattern then Ok (isEmpty name)
      else
        let '(star, chunk, pattern) := scanChunk pattern in
        if star && isEmpty chunk then
          (* Trailing * matches rest of string unless it has a /. *)
          Ok (negb (containsByte Separator name))
        else
          let invalid := remainder (S (String.length pattern)) pattern in
          (* Look for match at current position. *)
          match matchChunk chunk name with
          | (t, true, _) =>
              if isEmpty t || negb (isEmpty pattern)
              then matchLoop fuel' pattern t
              else if star then
                match skipping chunk (isEmpty pattern) name with
                | Found t => matchLoop fuel' pattern t
                | Failed e => Err e
                | NotFound => invalid
                end
              else invalid
          | (_, false, Some e) => Err e
          | (_, false, None) =>
              if star then
                match skipping chunk (isEmpty pattern) name with
                | Found t => matchLoop fuel' pattern t
                | Failed e => Err e
                | NotFound => invalid
                end
              else invalid
          end
  end.

(** [func Match(pattern, name string) (matched bool, err error)] *)
Definition Match (pattern name : string) : result bool :=
  matchLoop (S (String.length pattern)) pattern name.

(** *** Glob *)

(** [func hasMeta(path string) bool]: any of the magic characters. *)
Fixpoint hasMeta (path : string) : bool :=
  match path with
  | "" => false
  | String c rest =>
      Ascii.eqb c "*" || Ascii.eqb c "?" || Ascii.eqb c "[" || Ascii.eqb c "\"
      || hasMeta rest
  end.

(** [path[0 : len(path)-1]] *)
Fixpoint chop (path : string) : string :=
  match path with
  | "" => ""
  | String c "" => ""
  | String c rest => String c (chop rest)
  end.

(** [func cleanGlobPath(path string) string] *)
Definition cleanGlobPath (path : string) : string :=
  if isEmpty path then "."
  else if String.eqb path (String Separator "") then path
  else chop path. (* chop off trailing separator *)

(** The loop [for _, n := range names] of [glob]. *)
Fixpoint globNames (dir pattern : string) (names : list string)
  (m : list string) : result (list string) :=
  match names with
  | [] => Ok m
  | n :: names' =>
      matched ← Match pattern n;
      globNames dir pattern names'
        (if matched : bool then m ++ [Join [dir; n]] else m)
  end.

(** [func glob(dir, pattern string, matches []string) (m []string, e error)] *)
Definition glob (fs : FS) (dir pattern : string) (matches : list string)
  : result (list string) :=
  match Stat fs dir with
  | None => Ok matches              (* ignore I/O error *)
  | Some false => Ok matches        (* not a directory *)
  | Some true =>
      match Readdirnames fs dir with
      | None => Ok matches          (* ignore I/O error *)
      | Some names =>
          globNames dir pattern (merge_sort String.le names) matches
      end
  end.

(** The loop [for _, d := range m] of [globWithLimit]. *)
Fixpoint globDirs (fs : FS) (file : string) (m : list string)
  (matches : list string) : result (list string) :=
  match m with
  | [] => Ok matches
  | d :: m' => matches ← glob fs d file matches; globDirs fs file m' matches
  end.

Definition pathSeparatorsLimit : nat := 100 * 100.

(** [func globWithLimit(pattern string, depth int) ([]string, error)], with
    [left = pathSeparatorsLimit - depth]. *)
Fixpoint globWithLimit (fs : FS) (left : nat) (pattern : string)
  : result (list string) :=
  match left with
  | 0 => Err ErrBadPattern  (* depth == pathSeparatorsLimit *)
  | S left' =>
      (* Check pattern is well-formed. *)
      _ ← Match pattern "";
      if negb (hasMeta pattern) then
        if Lstat fs pattern then Ok [pattern] else Ok []
      else
        let (dir, file) := Split pattern in
        let dir := cleanGlobPath dir in
        if negb (hasMeta dir) then glob fs dir file []
        else if String.eqb dir pattern then
          (* Prevent infinite recursion. *)
          Err ErrBadPattern
        else
          m ← globWithLimit fs left' dir;
          globDirs fs file m []
  end.

(** [func Glob(pattern string) (matches []string, err error)] *)
Definition Glob (fs : FS) (pattern : string) : result (list string) :=
  globWithLimit fs pathSeparatorsLimit pattern.

End filepath.

(** ** Packages, as [goutil] hands them to gather *)

(** The fields of [go/build.Package] that gather and the package provider
    use. *)
Record BuildPackage : Type := {
  Dir : string;          (* directory containing the package sources *)
  ImportPath : string;   (* import path of the package *)
  Goroot : bool          (* package found in the Go root: standard library *)
}.

(** [goutil.Package] *)
Record Package : Type := { Build : BuildPackage }.

(** [goutil.Packages] is [[]*Package]. *)
Abbreviation Packages := (list Package).

Definition path (p : Package) : string := ImportPath (Build p).

(** Modelled from the spec: [goutil.Packages.Uniq], which is not part of
    gather.go.  "Removing duplicates", "with duplicates removed by import
    path", in "a stable iteration order": the first package of each import
    path is kept, in the order of the list.  [seen] holds the import paths
    met so far. *)
Fixpoint uniqFrom (seen : gset string) (ps : Packages) : Packages :=
  match ps with
  | [] => []
  | p :: ps' =>
      if decide (path p ∈ seen) then uniqFrom seen ps'
      else p :: uniqFrom ({[path p]} ∪ seen) ps'
  end.

(** Modelled from the spec: [func (ps Packages) Uniq() Packages] of
    [goutil], duplicates removed by import path. *)
Definition Uniq (ps : Packages) : Packages := uniqFrom ∅ ps.

(** Modelled from the spec: [goutil.Packages.NoStdlib], which is not part
    of gather.go.  "Remove every descriptor whose standard-library flag is
    true." *)
Definition NoStdlib (ps : Packages) : Packages :=
  base.filter (fun p => Goroot (Build p) = false) ps.

(** ** The process environment *)

(** What [os.Getwd] answers, and how many times it has been asked. *)
Record world : Type := World { wd : result string; getwds : nat }.

(** [os.Getwd()] *)
Definition Getwd (w : world) : result string * world :=
  (wd w, World (wd w) (S (getwds w))).

(** ** gather.go *)

Module gather.

(** The flags of the command line. *)
Record flags : Type := {
  tags : list string;
  stdlib : bool;
  noDeps : bool;
  exclude : string;
  rel : string;
  print0 : bool;
  dot : bool;
  faildup : bool
}.

(** A call [p.ImportDeps()] made by [importDeps], with the value of [deps]
    when it was made. *)
Record lookup : Type := Lookup { asked : Package; held : Packages }.

(** [type dupcheck map[string]string]: basename to the first full path that
    produced it. *)
Abbreviation dupcheck := (gmap string string).

Section external.

(** The package provider ([goutil], [gocli]) is not interpreted, and neither
    is [filepath.Rel]: gather only passes its answers on. *)

(** [gocli.FirstError(gocli.Import(false, goutil.Context(tags...), imports))] *)
Variable Import : list string → list string → result (list Packages).
(** [p.ImportDeps()]: all the packages [p] depends on *)
Variable ImportDeps : Package → result Packages.
(** [filepath.Rel(basepath, targpath)]: lexical, it reads no state *)
Variable Rel : string → string → result string.

(** [func importArgs(tags, imports []string) (goutil.Packages, error)];
    [gocli.Flatten] concatenates. *)
Definition importArgs (tags imports : list string) : result Packages :=
  pss ← Import tags imports; Ok (concat pss).

(** The loop [for _, p := range ps] of [importDeps]; [log] records the
    calls to the provider. *)
Fixpoint depsLoop (ps : Packages) (deps : Packages) (log : list lookup)
  : result Packages * list lookup :=
  match ps with
  | [] => (Ok deps, log)
  | p :: ps' =>
      let log := log ++ [Lookup p deps] in
      match ImportDeps p with
      | Err e => (Err e, log)
      | Ok ds => depsLoop ps' (deps ++ ds) log
      end
  end.

(** [func importDeps(ps goutil.Packages) (goutil.Packages, error)], with
    the calls it made to the provider. *)
Definition importDeps (ps : Packages) : result Packages * list lookup :=
  let (r, log) := depsLoop ps [] [] in
  (deps ← r; Ok (Uniq (ps ++ deps)), log).

(** [func match(dir, pattern string) ([]string, error)] *)
Definition match_ (fs : FS) (dir pattern : string) : result (list string) :=
  let p := filepath.Join [dir; pattern] in
  filepath.Glob fs p.

(** The loop [for _, p := range paths] of [filter]. *)
Fixpoint filterLoop (exclude : string) (paths : list string)
  (out : list string) : result (list string) :=
  match paths with
  | [] => Ok out
  | p :: paths' =>
      let b := filepath.Base p in
      skip ← filepath.Match exclude b;
      filterLoop exclude paths' (if skip : bool then out else out ++ [p])
  end.

(** [func filter(paths []string, exclude string) ([]string, error)] *)
Definition filter (paths : list string) (exclude : string)
  : result (list string) :=
  if isEmpty exclude then Ok paths else filterLoop exclude paths [].

(** [type pathFormatter func(string) (string, error)] *)
Definition pathFormatter : Type := string → result string.

(** [func identity(s string) (string, error)] *)
Definition identity : pathFormatter := fun s => Ok s.

(** [func mkRel(to string) pathFormatter] *)
Definition mkRel (to : string) : pathFormatter := fun s => Rel to s.

(** [func mkFormatter(rel string) (pathFormatter, error)] *)
Definition mkFormatter (rel : string) (w : world)
  : result pathFormatter * world :=
  if isEmpty rel then (Ok identity, w)
  else
    let rel := filepath.Clean rel in
    (* handle pwd as special case, will still barf on .. *)
    if String.eqb rel "." then
      match Getwd w with
      | (Err err, w) => (Err err, w)
      | (Ok rel, w) => (Ok (mkRel rel), w)
      end
    else (Ok (mkRel rel), w).

(** The loop [for _, p := range paths] of [format]. *)
Fixpoint formatLoop (f : pathFormatter) (paths : list string)
  (out : list string) : result (list string) :=
  match paths with
  | [] => Ok out
  | p :: paths' => s ← f p; formatLoop f paths' (out ++ [s])
  end.

(** [func format(paths []string, f pathFormatter) ([]string, error)] *)
Definition format (paths : list string) (f : pathFormatter)
  : result (list string) :=
  formatLoop f paths [].

(** [func (d dupcheck) push(p string) error].  The map is a reference: the
    registry after the call is returned next to the error ([None] is [nil]). *)
Definition push (d : dupcheck) (p : string) : dupcheck * option error :=
  let b := filepath.Base p in
  match d !! b with
  | Some o =>
      (d, Some (ErrorString
        ("duplicate file " +:+ b +:+ " found at" +:+ nl +:+ tab +:+ p +:+ nl
          +:+ "previously" +:+ nl +:+ tab +:+ o)))
  | None => (<[b := p]> d, None)
  end.

(** *** [main] *)

(** What [main] has done when it returns or dies: the registry, and what
    it has written to standard output. *)
Record proc : Type := Proc { dups : dupcheck; stdout : string }.

(** "select pattern of files to match":
    [pat := "*"; if len(args) != 0 { pat, args = args[0], args[1:] }] *)
Definition selectPattern (args : list string) : string * list string :=
  match args with
  | [] => ("*", [])
  | a :: args' => (a, args')
  end.

(** "choose our separator" *)
Definition separator (print0 : bool) : string := if print0 then nul else nl.

(** "unless told otherwise, filter out dot files", then "filter out any
    exclusions". *)
Definition exclusions (dot : bool) (exclude : string) (ms : list string)
  : result (list string) :=
  ms ← (if negb dot then filter ms ".*" else Ok ms);
  filter ms exclude.

(** "print formatted files, error if duplicate and we're checking for
    them":
    [for _, m := range ms { if *faildup { err = dups.push(m); if *faildup &&
    err != nil { log.Fatalln(err) } }; fmt.Printf("%s%s", m, sep) }].
    [log.Fatalln] ends the process: the loop stops with the error. *)
Fixpoint emit (faildup : bool) (sep : string) (ms : list string) (st : proc)
  : proc * option error :=
  match ms with
  | [] => (st, None)
  | m :: ms' =>
      if faildup then
        match push (dups st) m with
        | (d, Some err) => (Proc d (stdout st), Some err)
        | (d, None) => emit faildup sep ms' (Proc d (stdout st +:+ m +:+ sep))
        end
      else emit faildup sep ms' (Proc (dups st) (stdout st +:+ m +:+ sep))
  end.

(** The loop [for _, p := range ps] of [main]. *)
Fixpoint scan (fs : FS) (fl : flags) (pat : string) (formatter : pathFormatter)
  (ps : Packages) (st : proc) : proc * option error :=
  match ps with
  | [] => (st, None)
  | p :: ps' =>
      let found :=
        (* find matching files *)
        ms ← match_ fs (Dir (Build p)) pat;
        ms ← exclusions (dot fl) (exclude fl) ms;
        (* format paths *)
        format ms formatter in
      match found with
      | Err err => (st, Some err)
      | Ok ms =>
          match emit (faildup fl) (separator (print0 fl)) ms st with
          | (st, Some err) => (st, Some err)
          | (st, None) => scan fs fl pat formatter ps' st
          end
      end
  end.

(** "select packages", "load dependencies of selected packages, unless told
    otherwise", "filter out standard library packages, unless told
    otherwise". *)
Definition packages (fl : flags) (args : list string) : result Packages :=
  ps ← importArgs (tags fl) args;
  ps ← (if negb (noDeps fl) then fst (importDeps ps) else Ok ps);
  Ok (if negb (stdlib fl) then NoStdlib ps else ps).

(** [func main()], on the parsed flags and [flag.Args()]: what was written
    to standard output, and the error [log.Fatalln] died of, if any. *)
Definition main (fs : FS) (w : world) (fl : flags) (args : list string)
  : string * option error :=
  let (pat, args) := selectPattern args in
  match packages fl args with
  | Err err => ("", Some err)
  | Ok ps =>
      (* build our path formatter *)
      match mkFormatter (rel fl) w with
      | (Err err, _) => ("", Some err)
      | (Ok formatter, _) =>
          let (st, err) := scan fs fl pat formatter ps (Proc ∅ "") in
          (stdout st, err)
      end
  end.

End external.

(** What [fmt.Printf("%s%s", m, sep)] writes for each of [ms], in order. *)
Definition records (sep : string) (ms : list string) : string :=
  foldr (fun m acc => m +:+ sep +:+ acc) "" ms.

(** What one turn of the loop of [main] has for the package [p] when it
    comes to print: "find matching files", the two [filter]s and "format
    paths". *)
Definition gathered (fs : FS) (fl : flags) (pat : string)
  (formatter : pathFormatter) (p : Package) : result (list string) :=
  ms ← match_ fs (Dir (Build p)) pat;
  ms ← exclusions (dot fl) (exclude fl) ms;
  format ms formatter.

(** Whether [pattern] matches [name]: the boolean that [Match] answers
    ([false] when it fails). *)
Definition matches (pattern name : string) : bool :=
  match filepath.Match pattern name with
  | Ok matched => matched
  | Err _ => false
  end.

(** [skip] in the loop of [filter], for the path [p]: whether the glob
    matches its basename ([false] when [Match] fails, and the loop ends). *)
Definition skips (exclude p : string) : bool :=
  match filepath.Match exclude (filepath.Base p) with
  | Ok skip => skip
  | Err _ => false
  end.

(** What a run that checks for duplicates has done between two of its
    states: it wrote the paths [ms], whose basenames differ from one
    another and were not registered, and registered each of them under its
    basename, and nothing else. *)
Definition wrote (sep : string) (ms : list string) (st st' : proc) : Prop :=
  stdout st' = stdout st +:+ records sep ms
  ∧ NoDup (filepath.Base <$> ms)
  ∧ (∀ m, m ∈ ms →
       dups st !! filepath.Base m = None
       ∧ dups st' !! filepath.Base m = Some m)
  ∧ (∀ k, k ∉ filepath.Base <$> ms → dups st' !! k = dups st !! k).

End gather.

(** ** The Filter Chain, in the words of the specification

    "Apply zero or more exclusion stages in fixed order: (1) dot-file
    exclusion — remove any entry whose basename matches a fixed dotfile
    glob, unless the caller has opted to include dot files; (2)
    user-exclusion — remove any entry whose basename matches a
    caller-supplied glob, if one was given."  An invalid glob makes a stage
    fail. *)

Module FilterChain.

(** Remove any entry whose basename matches [glob]. *)
Fixpoint removeMatching (glob : string) (entries : list string)
  : result (list string) :=
  match entries with
  | [] => Ok []
  | entry :: entries' =>
      matches ← filepath.Match glob (filepath.Base entry);
      kept ← removeMatching glob entries';
      Ok (if matches : bool then kept else entry :: kept)
  end.

Definition dotfileGlob : string := ".*".

Definition dotFileExclusion (includeDotFiles : bool) (entries : list string)
  : result (list string) :=
  if includeDotFiles then Ok entries else removeMatching dotfileGlob entries.

Definition userExclusion (glob : string) (entries : list string)
  : result (list string) :=
  if String.eqb glob "" then Ok entries else removeMatching glob entries.

Definition chain (includeDotFiles : bool) (glob : string)
  (entries : list string) : result (list string) :=
  entries ← dotFileExclusion includeDotFiles entries;
  userExclusion glob entries.

End FilterChain.

(** ** What the specification says of the Closure Expander *)

Module Closure.

(** "Must not re-query an import path already present in the accumulating
    union within the same call": no call to the provider is for an import
    path that [deps] holds when the call is made. *)
Definition neverRequeries (ImportDeps : Package → result Packages)
  (ps : Packages) : Prop :=
  ∀ l, l ∈ snd (gather.importDeps ImportDeps ps) →
    path (gather.asked l) ∉ path <$> gather.held l.

(** Modelled from the spec: the answers of [ImportDeps], which is not part
    of gather.go.  The provider returns the "transitive dependency set" of
    a package, "deep resolution is delegated": the provider answers for
    every package it returned, and with packages whose import paths it had
    returned already. *)
Definition deep (ImportDeps : Package → result Packages) : Prop :=
  ∀ p ds q, ImportDeps p = Ok ds → q ∈ ds →
    ∃ ds', ImportDeps q = Ok ds' ∧ ∀ r, r ∈ ds' → path r ∈ path <$> ds.

End Closure.

(** ** What the specification says of the File Matcher *)

Module Matcher.

(** A pattern is malformed when [Match] answers [ErrBadPattern] for it
    ("the only possible returned error is ErrBadPattern, when pattern is
    malformed"), and well formed when it never does. *)
Definition wellFormed (pattern : string) : Prop :=
  ∀ name e, filepath.Match pattern name ≠ Err e.

(** A single path element: not empty, without separator, and not one of
    the elements [.] and [..] that [Clean] resolves. *)
Definition singleElement (s : string) : bool :=
  negb (isEmpty s) && negb (containsByte filepath.Separator s)
  && negb (String.eqb s ".") && negb (String.eqb s "..").

(** The path of the entry [n] of the clean directory [dir]: what
    [filepath.Join] makes of them (lemma [Join_single]). *)
Definition child (dir n : string) : string :=
  if String.eqb dir "." then n
  else if String.eqb dir "/" then "/" +:+ n
  else dir +:+ "/" +:+ n.

(** Reading the directory [dir] lists the name [n]. *)
Definition listed (fs : FS) (dir n : string) : Prop :=
  ∃ names, Readdirnames fs dir = Some names ∧ n ∈ names.

(** "Filesystem entries within that directory (non-recursive — one level
    only) whose name matches the pattern." *)
Definition directEntry (fs : FS) (dir pattern m : string) : Prop :=
  ∃ n, listed fs dir n ∧ m = filepath.Join [dir; n]
       ∧ filepath.Match pattern n = Ok true.

Definition onlyDirectEntries (fs : FS) (dir pattern : string) : Prop :=
  ∀ ms m, gather.match_ fs dir pattern = Ok ms → m ∈ ms →
    directEntry fs dir pattern m.

(** The directory [dir] does not exist: it cannot be examined, and nothing
    is found in it. *)
Definition missing (fs : FS) (dir : string) : Prop :=
  Lstat fs dir = false ∧ Stat fs dir = None
  ∧ ∀ n, singleElement n = true →
      Lstat fs (filepath.Join [dir; n]) = false.

(** "A non-existent directory yields an empty sequence (not an error)";
    "fails with a GlobError only on a malformed pattern". *)
Definition missingIsEmpty (fs : FS) (dir pattern : string) : Prop :=
  wellFormed pattern → missing fs dir →
  gather.match_ fs dir pattern = Ok [].

Definition failsOnlyOnMalformed (fs : FS) (dir pattern : string) : Prop :=
  ∀ e, gather.match_ fs dir pattern = Err e →
    e = ErrBadPattern ∧ ¬ wellFormed pattern.

End Matcher.

(** ** Two packages and their directories, for the examples

    Package [p] imports package [q]; [q] imports nothing. *)

Module Sample.

Definition P : Package :=
  {| Build := {| Dir := "/src/p"; ImportPath := "p"; Goroot := false |} |}.
Definition Q : Package :=
  {| Build := {| Dir := "/src/q"; ImportPath := "q"; Goroot := false |} |}.

Definition ImportDeps (p : Package) : result Packages :=
  if String.eqb (path p) "p" then Ok [Q] else Ok [].

(** The command line names [p], whatever it says. *)
Definition Import (tags imports : list string) : result (list Packages) :=
  Ok [[P]].

(** No base is given in the examples, and [filepath.Rel] is not called. *)
Definition Rel (basepath targpath : string) : result string :=
  Err (ErrorString "Rel").

Definition here : world := World (Ok "/src/p") 0.

(** No flag given. *)
Definition defaults : gather.flags :=
  {| gather.tags := []; gather.stdlib := false; gather.noDeps := false;
     gather.exclude := ""; gather.rel := ""; gather.print0 := false;
     gather.dot := false; gather.faildup := false |}.

Definition failOnDup : gather.flags :=
  {| gather.tags := []; gather.stdlib := false; gather.noDeps := false;
     gather.exclude := ""; gather.rel := ""; gather.print0 := false;
     gather.dot := false; gather.faildup := true |}.

Definition noDependencies : gather.flags :=
  {| gather.tags := []; gather.stdlib := false; gather.noDeps := true;
     gather.exclude := ""; gather.rel := ""; gather.print0 := false;
     gather.dot := false; gather.faildup := false |}.

(** A file system from the table of its paths: [None] for a file, the
    names in it for a directory. *)
Fixpoint find (table : list (string * option (list string))) (name : string)
  : option (option (list string)) :=
  match table with
  | [] => None
  | (name', entry) :: table' =>
      if String.eqb name name' then Some entry else find table' name
  end.

Definition ofTable (table : list (string * option (list string))) : FS :=
  {| Lstat name :=
       match find table name with Some _ => true | None => false end;
     Stat name :=
       match find table name with
       | Some (Some _) => Some true
       | Some None => Some false
       | None => None
       end;
     Readdirnames name :=
       match find table name with
       | Some (Some names) => Some names
       | _ => None
       end |}.

(** The directory of [p] holds [a.css], [.hidden.css] and a directory
    [sub] with [b.css]; the directory of [q] holds [a.css] and [b.css]. *)
Definition disk : FS :=
  ofTable
    [ ("/", Some ["src"]);
      ("/src", Some ["q"; "p"]);
      ("/src/p", Some ["sub"; "a.css"; ".hidden.css"]);
      ("/src/p/a.css", None);
      ("/src/p/.hidden.css", None);
      ("/src/p/sub", Some ["b.css"]);
      ("/src/p/sub/b.css", None);
      ("/src/q", Some ["b.css"; "a.css"]);
      ("/src/q/a.css", None);
      ("/src/q/b.css", None) ].

End Sample.

(** * Properties *)

Import gather.

(** ** Strings *)

Lemma append_cons (c : ascii) (s t : string) :
  String c s +:+ t = String c (s +:+ t).
Proof. reflexivity. Qed.

Lemma append_nil_r (s : string) : s +:+ "" = s.
Proof. induction s as [|c s IH]; [done|]. by rewrite append_cons, IH. Qed.

Lemma append_assoc (s t u : string) : (s +:+ t) +:+ u = s +:+ t +:+ u.
Proof. induction s as [|c s IH]; [done|]. by rewrite !append_cons, IH. Qed.

Lemma contains_here (pre t post : string) : contains (pre +:+ t +:+ post) t.
Proof. by exists pre, post. Qed.

Lemma contains_append (pre s t : string) :
  contains s t → contains (pre +:+ s) t.
Proof.
  intros (a & b & ->). exists (pre +:+ a), b. by rewrite append_assoc.
Qed.

Lemma contains_end (pre t : string) : contains (pre +:+ t) t.
Proof. exists pre, "". by rewrite append_nil_r. Qed.

(** ** The duplicate registry *)

Example Base_file : filepath.Base "/a/x.txt" = "x.txt".
Proof. reflexivity. Qed.
Example Base_trailing : filepath.Base "/a/b//" = "b".
Proof. reflexivity. Qed.
Example Base_root : filepath.Base "///" = "/".
Proof. reflexivity. Qed.
Example Base_empty : filepath.Base "" = ".".
Proof. reflexivity. Qed.

Lemma push_fresh (d : gmap string string) (p : string) :
  d !! filepath.Base p = None →
  push d p = (<[filepath.Base p := p]> d, None).
Proof. intros H. unfold push. by rewrite H. Qed.

Lemma push_taken (d : gmap string string) (p o : string) :
  d !! filepath.Base p = Some o →
  ∃ msg, push d p = (d, Some (ErrorString msg))
    ∧ contains msg (filepath.Base p) ∧ contains msg p ∧ contains msg o.
Proof.
  intros H. unfold push. rewrite H. eexists. split; [done|].
  split; [apply contains_here|].
  split; [|do 9 apply contains_append; apply contains_end].
  do 4 apply contains_append. apply contains_here.
Qed.

Lemma emit_unchecked (sep : string) (ms : list string) (st : proc) :
  emit false sep ms st
  = (Proc (dups st) (stdout st +:+ records sep ms), None).
Proof.
  revert st. induction ms as [|m ms IH]; intros [d out]; simpl.
  - by rewrite append_nil_r.
  - rewrite IH. simpl. by rewrite !append_assoc.
Qed.

(** C1.  With duplicate detection enabled, two paths with the same
    basename pushed in order into a fresh registry: the first push succeeds
    and records the path; the second fails with an error whose message
    contains the basename, the new path and the path registered before, and
    [main]'s loop has then written the first path only.  With detection
    disabled every path is written, and the registry is neither read nor
    changed. *)
Theorem push_detects_duplicate (p1 p2 : string) :
  filepath.Base p1 = filepath.Base p2 →
  let b := filepath.Base p1 in
  push ∅ p1 = ({[b := p1]}, None)
  ∧ (∃ msg,
      push {[b := p1]} p2 = ({[b := p1]}, Some (ErrorString msg))
      ∧ contains msg b ∧ contains msg p2 ∧ contains msg p1
      ∧ ∀ sep, emit true sep [p1; p2] (Proc ∅ "")
               = (Proc {[b := p1]} (p1 +:+ sep), Some (ErrorString msg)))
  ∧ (∀ sep ms st,
      emit false sep ms st
      = (Proc (dups st) (stdout st +:+ records sep ms), None)).
Proof.
  intros Hb b. split; [|split].
  - by rewrite push_fresh by apply lookup_empty.
  - destruct (push_taken {[b := p1]} p2 p1) as (msg & Hpush & Hc).
    { rewrite <- Hb. apply lookup_singleton_eq. }
    exists msg. rewrite <- Hb in Hc. repeat split; try tauto.
    intros sep. simpl. rewrite push_fresh by apply lookup_empty. simpl.
    fold b. rewrite insert_empty.
    change (dups _) with ({[b := p1]} : gmap string string).
    by rewrite Hpush.
  - apply emit_unchecked.
Qed.

Lemma push_detects_duplicate_witness :
  filepath.Base "/a/x.txt" = filepath.Base "/b/x.txt"
  ∧ push ∅ "/a/x.txt" = ({["x.txt" := "/a/x.txt"]}, None)
  ∧ ∃ msg, push {["x.txt" := "/a/x.txt"]} "/b/x.txt"
           = ({["x.txt" := "/a/x.txt"]}, Some (ErrorString msg)).
Proof.
  split; [reflexivity|].
  destruct (push_detects_duplicate "/a/x.txt" "/b/x.txt" eq_refl)
    as (H1 & (msg & H2 & _) & _).
  split; [exact H1|]. exists msg. exact H2.
Defined.

(** C10.  A failed push is atomic: when [push] returns an error the
    registry is the one it was given, and the path registered for the
    basename is still the earlier one. *)
Theorem push_failure_atomic (d d' : dupcheck) (p : string) (e : error) :
  push d p = (d', Some e) →
  d' = d
  ∧ ∃ o, d !! filepath.Base p = Some o ∧ d' !! filepath.Base p = Some o.
Proof.
  unfold push. destruct (d !! filepath.Base p) as [o|] eqn:Ho; [|done].
  intros [= <- _]. eauto.
Qed.

Lemma push_failure_atomic_witness :
  ∃ e, push {["x.txt" := "/a/x.txt"]} "/b/x.txt"
       = ({["x.txt" := "/a/x.txt"]}, Some e)
  ∧ ∃ o, ({["x.txt" := "/a/x.txt"]} : dupcheck) !! filepath.Base "/b/x.txt"
         = Some o
       ∧ ({["x.txt" := "/a/x.txt"]} : dupcheck) !! filepath.Base "/b/x.txt"
         = Some o.
Proof.
  eexists. split; [reflexivity|].
  eapply (push_failure_atomic {["x.txt" := "/a/x.txt"]} _ "/b/x.txt").
  reflexivity.
Defined.

(** ** The command line *)

Lemma Match_star (name : string) :
  filepath.Match "*" name = Ok (negb (containsByte filepath.Separator name)).
Proof. reflexivity. Qed.

(** C7.  When at least one argument is present the first is the glob
    pattern and the others are the import specifiers; with no argument at
    all the pattern is ["*"], which matches every file name, and no
    specifier is handed to the package resolver, which then takes the
    current directory. *)
Theorem selectPattern_first_argument :
  (∀ (a : string) (args : list string), selectPattern (a :: args) = (a, args))
  ∧ selectPattern [] = ("*", [])
  ∧ (∀ name : string,
       containsByte filepath.Separator name = false →
       filepath.Match (fst (selectPattern [])) name = Ok true).
Proof.
  split; [done|]. split; [done|].
  intros name H. simpl. by rewrite Match_star, H.
Qed.

Lemma selectPattern_first_argument_witness :
  containsByte filepath.Separator "a.css" = false
  ∧ filepath.Match (fst (selectPattern [])) "a.css" = Ok true.
Proof.
  split; [reflexivity|].
  apply (proj2 (proj2 selectPattern_first_argument)). reflexivity.
Defined.

(** ** The filters *)

Lemma bind_Ok {A B} (m : result A) (f : A → result B) (b : B) :
  m ≫= f = Ok b ↔ ∃ a, m = Ok a ∧ f a = Ok b.
Proof.
  destruct m as [a|e]; simpl.
  - split; [eauto|]. by intros (a' & [= <-] & H).
  - split; [done|]. by intros (a' & ? & _).
Qed.

Lemma filterLoop_kept (exclude : string) (paths out r : list string) :
  filterLoop exclude paths out = Ok r →
  ∃ kept, r = out ++ kept ∧ kept `sublist_of` paths.
Proof.
  revert out. induction paths as [|p paths IH]; intros out; simpl.
  - intros [= <-]. exists []. by rewrite app_nil_r.
  - intros (skip & _ & Hloop)%bind_Ok.
    destruct (IH _ Hloop) as (kept & -> & Hsub). destruct skip.
    + exists kept. split; [done|]. by apply sublist_cons.
    + exists (p :: kept). rewrite <- app_assoc. split; [done|].
      by apply sublist_skip.
Qed.

(** C9.  What [filter] returns is a subsequence of what it was given: the
    retained paths, each of them a path of the input, none added and none
    repeated, in the order of the input. *)
Theorem filter_sublist (paths : list string) (exclude : string)
  (out : list string) :
  filter paths exclude = Ok out →
  out `sublist_of` paths ∧ ∀ p, p ∈ out → p ∈ paths.
Proof.
  intros H. assert (out `sublist_of` paths) as Hsub.
  { unfold filter in H. destruct (isEmpty exclude).
    - by injection H as <-.
    - by destruct (filterLoop_kept _ _ _ _ H) as (kept & -> & Hsub). }
  split; [done|]. intros p. by apply sublist_subseteq.
Qed.

Lemma filter_sublist_witness :
  filter ["/p/a.css"; "/p/.hidden.css"; "/p/b.css"] ".*"
  = Ok ["/p/a.css"; "/p/b.css"]
  ∧ ["/p/a.css"; "/p/b.css"]
    `sublist_of` ["/p/a.css"; "/p/.hidden.css"; "/p/b.css"].
Proof.
  split; [reflexivity|].
  apply (filter_sublist ["/p/a.css"; "/p/.hidden.css"; "/p/b.css"] ".*").
  reflexivity.
Defined.

Lemma filterLoop_removeMatching (glob : string) (paths out : list string) :
  filterLoop glob paths out
  = (kept ← FilterChain.removeMatching glob paths; Ok (out ++ kept)).
Proof.
  revert out. induction paths as [|p paths IH]; intros out; simpl.
  - by rewrite app_nil_r.
  - destruct (filepath.Match glob (filepath.Base p)) as [skip|e]; [|done].
    simpl. rewrite IH.
    destruct (FilterChain.removeMatching glob paths) as [kept|e]; [|done].
    simpl. destruct skip; [done|]. by rewrite <- app_assoc.
Qed.

Lemma filter_removeMatching (glob : string) (paths : list string) :
  filter paths glob
  = if isEmpty glob then Ok paths else FilterChain.removeMatching glob paths.
Proof.
  unfold filter. destruct (isEmpty glob); [done|].
  rewrite filterLoop_removeMatching.
  by destruct (FilterChain.removeMatching glob paths).
Qed.

Lemma filter_dotFileExclusion (dot : bool) (ms : list string) :
  (if negb dot then filter ms ".*" else Ok ms)
  = FilterChain.dotFileExclusion dot ms.
Proof.
  unfold FilterChain.dotFileExclusion. destruct dot; [done|].
  apply filter_removeMatching.
Qed.

Lemma filter_userExclusion (exclude : string) (ms : list string) :
  filter ms exclude = FilterChain.userExclusion exclude ms.
Proof.
  unfold FilterChain.userExclusion. rewrite filter_removeMatching.
  by destruct exclude.
Qed.

(** C3.  The exclusion stages of [main] are the Filter Chain of the
    specification: dot-file exclusion first (unless dot files are
    included), then the exclusion given by the caller (if one was given),
    each on the basenames. *)
Theorem exclusions_in_order (dot : bool) (exclude : string)
  (ms : list string) :
  exclusions dot exclude ms = FilterChain.chain dot exclude ms.
Proof.
  unfold exclusions, FilterChain.chain.
  rewrite filter_dotFileExclusion.
  destruct (FilterChain.dotFileExclusion dot ms) as [ms'|e]; [|done].
  simpl. apply filter_userExclusion.
Qed.

(** What a stage keeps: the entries whose basename the glob does not
    match. *)
Lemma removeMatching_kept (glob : string) (ms out : list string) :
  FilterChain.removeMatching glob ms = Ok out →
  ∀ m, m ∈ out ↔ m ∈ ms ∧ filepath.Match glob (filepath.Base m) = Ok false.
Proof.
  revert out. induction ms as [|m0 ms IH]; intros out; simpl.
  - intros [= <-] m. rewrite elem_of_nil. tauto.
  - intros (matches & Hm0 & (kept & Hkept & [= <-])%bind_Ok)%bind_Ok m.
    specialize (IH kept Hkept m). rewrite elem_of_cons.
    destruct matches.
    + rewrite IH. split; [tauto|]. intros [[->|?] ?]; [congruence|tauto].
    + rewrite elem_of_cons, IH. split; [|tauto].
      intros [->|[? ?]]; [split; [by left|done]|tauto].
Qed.

Lemma exclusions_kept (exclude : string) (ms out : list string) :
  exclude ≠ "" →
  exclusions false exclude ms = Ok out →
  ∀ m, m ∈ out ↔
    m ∈ ms ∧ filepath.Match ".*" (filepath.Base m) = Ok false
    ∧ filepath.Match exclude (filepath.Base m) = Ok false.
Proof.
  intros Hne. unfold exclusions. rewrite filter_dotFileExclusion.
  intros (kept & Hdot & Huser)%bind_Ok m.
  rewrite filter_userExclusion in Huser.
  unfold FilterChain.dotFileExclusion in Hdot.
  unfold FilterChain.userExclusion in Huser.
  destruct (String.eqb_spec exclude "") as [|_]; [done|].
  rewrite (removeMatching_kept _ _ _ Huser m).
  rewrite (removeMatching_kept _ _ _ Hdot m). tauto.
Qed.

(** The dot-file stage cannot fail: its glob is well formed. *)
Lemma Match_dotfile (name : string) :
  filepath.Match ".*" name
  = Ok (startsWith "." name
        && negb (containsByte filepath.Separator (skip 1 name))).
Proof.
  destruct name as [|c name]; [reflexivity|].
  unfold filepath.Match. simpl. unfold filepath.matchChunk. simpl.
  destruct (Ascii.eqb c "."); simpl; [by rewrite orb_true_r | done].
Qed.

Example exclusions_example :
  exclusions false "b*"
    ["/p/a.css"; "/p/.hidden.css"; "/p/b.css"; "/p/.b"]
  = Ok ["/p/a.css"].
Proof. reflexivity. Qed.

(** The order shows when the caller's glob is malformed: it is reported
    only if an entry is left for it to be tried on. *)
Example exclusions_order_visible :
  exclusions false "[" ["/p/.hidden.css"] = Ok []
  ∧ filter ["/p/.hidden.css"] "[" = Err ErrBadPattern.
Proof. split; reflexivity. Qed.

(** ** The path formatter *)

Section formatter.

Variable Rel : string → string → result string.

Lemma formatLoop_mapM (f : pathFormatter) (paths out : list string) :
  formatLoop f paths out = (ss ← mapM f paths; Ok (out ++ ss)).
Proof.
  revert out. induction paths as [|p paths IH]; intros out; simpl.
  - by rewrite app_nil_r.
  - destruct (f p) as [s|e]; [|done]. simpl. rewrite IH.
    destruct (mapM f paths) as [ss|e]; [|done]. simpl.
    by rewrite <- app_assoc.
Qed.

Lemma format_mapM (f : pathFormatter) (paths : list string) :
  format paths f = mapM f paths.
Proof.
  unfold format. rewrite formatLoop_mapM. by destruct (mapM f paths).
Qed.

(** C4.  With an empty base the formatter is the identity, and the working
    directory is not asked for.  With the base ["."] the working directory
    is asked for once, when the formatter is made, and never by the
    formatter: the formatter made is [Rel] to the directory answered then,
    so [format] rewrites every path of the run relative to that one
    directory. *)
Theorem mkFormatter_base (w : world) :
  mkFormatter Rel "" w = (Ok identity, w)
  ∧ (∀ p, identity p = Ok p)
  ∧ mkFormatter Rel "." w
    = (dir ← wd w; Ok (mkRel Rel dir), World (wd w) (S (getwds w)))
  ∧ (∀ dir paths, format paths (mkRel Rel dir) = mapM (Rel dir) paths).
Proof.
  split; [done|]. split; [done|]. split.
  - unfold mkFormatter. simpl. by destruct (wd w).
  - intros dir paths. apply format_mapM.
Qed.

End formatter.

(** ** Closure expansion *)

Section closure.

Variable ImportDeps : Package → result Packages.

Lemma depsLoop_asked (ps deps : Packages) (log : list lookup) :
  ∃ k, asked <$> snd (depsLoop ImportDeps ps deps log)
       = (asked <$> log) ++ take k ps.
Proof.
  revert deps log. induction ps as [|p ps IH]; intros deps log; simpl.
  - exists 0. by rewrite app_nil_r.
  - destruct (ImportDeps p) as [ds|e]; simpl.
    + destruct (IH (deps ++ ds) (log ++ [Lookup p deps])) as [k ->].
      exists (S k). rewrite fmap_app. simpl. by rewrite <- app_assoc.
    + exists 1. rewrite fmap_app. simpl. by rewrite take_0.
Qed.

Lemma depsLoop_Ok (ps deps : Packages) (log : list lookup) (D : Packages) :
  fst (depsLoop ImportDeps ps deps log) = Ok D →
  ∃ dss, Forall2 (fun p ds => ImportDeps p = Ok ds) ps dss
    ∧ D = deps ++ concat dss
    ∧ asked <$> snd (depsLoop ImportDeps ps deps log) = (asked <$> log) ++ ps.
Proof.
  revert deps log. induction ps as [|p ps IH]; intros deps log; simpl.
  - intros [= <-]. exists []. by rewrite !app_nil_r.
  - destruct (ImportDeps p) as [ds|e] eqn:Hp; [|done]. intros H.
    destruct (IH _ _ H) as (dss & Hall & -> & Hlog).
    exists (ds :: dss). split; [by constructor|]. split.
    + simpl. by rewrite app_assoc.
    + rewrite Hlog, fmap_app. simpl. by rewrite <- app_assoc.
Qed.

Lemma importDeps_fst (ps : Packages) :
  fst (importDeps ImportDeps ps)
  = (deps ← fst (depsLoop ImportDeps ps [] []); Ok (Uniq (ps ++ deps))).
Proof. unfold importDeps. by destruct (depsLoop ImportDeps ps [] []). Qed.

Lemma importDeps_snd (ps : Packages) :
  snd (importDeps ImportDeps ps) = snd (depsLoop ImportDeps ps [] []).
Proof. unfold importDeps. by destruct (depsLoop ImportDeps ps [] []). Qed.

(** *** [Uniq] *)

Lemma elem_of_uniqFrom (seen : gset string) (ps : Packages) (x : string) :
  x ∈ path <$> uniqFrom seen ps ↔ x ∈ path <$> ps ∧ x ∉ seen.
Proof.
  revert seen. induction ps as [|p ps IH]; intros seen; cbn [uniqFrom].
  - rewrite fmap_nil, elem_of_nil. tauto.
  - destruct (decide (path p ∈ seen)) as [Hin|Hout];
      rewrite ?fmap_cons, ?elem_of_cons, IH.
    + split; [tauto|]. intros [[->|?] ?]; [done|tauto].
    + rewrite elem_of_union, elem_of_singleton. split.
      * intros [->|[? ?]]; [split; [by left|done]|]. split; [by right|tauto].
      * intros [[->|?] ?]; [by left|].
        destruct (decide (x = path p)); [by left|]. right. tauto.
Qed.

Lemma uniqFrom_NoDup (seen : gset string) (ps : Packages) :
  NoDup (path <$> uniqFrom seen ps).
Proof.
  revert seen. induction ps as [|p ps IH]; intros seen; cbn [uniqFrom].
  - constructor.
  - destruct (decide (path p ∈ seen)); [apply IH|]. rewrite fmap_cons.
    constructor; [|apply IH]. rewrite elem_of_uniqFrom. set_solver.
Qed.

Lemma uniqFrom_sublist (seen : gset string) (ps : Packages) :
  uniqFrom seen ps `sublist_of` ps.
Proof.
  revert seen. induction ps as [|p ps IH]; intros seen; simpl; [done|].
  destruct (decide (path p ∈ seen)).
  - by apply sublist_cons.
  - by apply sublist_skip.
Qed.

Lemma uniqFrom_app (seen : gset string) (ps qs : Packages) :
  uniqFrom seen (ps ++ qs)
  = uniqFrom seen ps ++ uniqFrom (list_to_set (path <$> ps) ∪ seen) qs.
Proof.
  revert seen. induction ps as [|p ps IH]; intros seen; simpl.
  - f_equal. set_solver.
  - destruct (decide (path p ∈ seen)) as [Hin|Hout]; rewrite IH.
    + f_equal. f_equal. set_solver.
    + simpl. f_equal. f_equal. f_equal. set_solver.
Qed.

Lemma uniqFrom_seen (seen : gset string) (ps : Packages) :
  (∀ x, x ∈ path <$> ps → x ∈ seen) → uniqFrom seen ps = [].
Proof.
  induction ps as [|p ps IH]; intros H; simpl; [done|].
  destruct (decide (path p ∈ seen)) as [Hin|Hout].
  - apply IH. set_solver.
  - destruct Hout. apply H. set_solver.
Qed.

Lemma uniqFrom_idemp (seen : gset string) (ps : Packages) :
  uniqFrom seen (uniqFrom seen ps) = uniqFrom seen ps.
Proof.
  revert seen. induction ps as [|p ps IH]; intros seen; simpl; [done|].
  destruct (decide (path p ∈ seen)) as [Hin|Hout]; [apply IH|]. simpl.
  destruct (decide (path p ∈ seen)); [done|]. f_equal. apply IH.
Qed.

Lemma Uniq_absorbs (ps qs : Packages) :
  (∀ x, x ∈ path <$> qs → x ∈ path <$> ps) →
  Uniq (Uniq ps ++ qs) = Uniq ps.
Proof.
  intros H. unfold Uniq. rewrite uniqFrom_app, uniqFrom_idemp.
  rewrite (uniqFrom_seen _ qs); [by rewrite app_nil_r|].
  intros x Hx. apply elem_of_union_l, elem_of_list_to_set, elem_of_uniqFrom.
  split; [by apply H | set_solver].
Qed.

(** Every call is answered, with packages whose import paths are in [X]. *)
Lemma depsLoop_answered (X : list string) (ps deps : Packages)
  (log : list lookup) :
  Forall (fun p => ∃ ds, ImportDeps p = Ok ds ∧ ∀ r, r ∈ ds → path r ∈ X) ps →
  ∃ D, fst (depsLoop ImportDeps ps deps log) = Ok (deps ++ D)
    ∧ ∀ r, r ∈ D → path r ∈ X.
Proof.
  revert deps log. induction ps as [|p ps IH]; intros deps log Hall; simpl.
  - exists []. rewrite app_nil_r. split; [done|]. set_solver.
  - inversion Hall as [|? ? (ds & Hp & Hds) Hall']; subst. rewrite Hp.
    destruct (IH (deps ++ ds) (log ++ [Lookup p deps]) Hall') as (D & -> & HD).
    exists (ds ++ D). rewrite app_assoc. split; [done|].
    intros r [?|?]%elem_of_app; auto.
Qed.

(** C2, as amended.  [importDeps] calls the provider for the packages it
    was given, in their order and once for each, whatever [deps] holds by
    then: the calls are a prefix of the input, and all of it when no call
    fails.  Then the result is [Uniq] of the input followed by the answers,
    which holds every import path once. *)
Theorem importDeps_one_call_each (ps : Packages) :
  asked <$> snd (importDeps ImportDeps ps) `prefix_of` ps
  ∧ ∀ E, fst (importDeps ImportDeps ps) = Ok E →
      asked <$> snd (importDeps ImportDeps ps) = ps
      ∧ (∃ dss, Forall2 (fun p ds => ImportDeps p = Ok ds) ps dss
                ∧ E = Uniq (ps ++ concat dss))
      ∧ NoDup (path <$> E).
Proof.
  split.
  - rewrite importDeps_snd.
    destruct (depsLoop_asked ps [] []) as [k ->]. simpl.
    apply prefix_take.
  - intros E. rewrite importDeps_fst, importDeps_snd.
    intros (D & HD & [= <-])%bind_Ok.
    destruct (depsLoop_Ok _ _ _ _ HD) as (dss & Hall & -> & Hlog).
    split; [done|]. split; [by exists dss|]. apply uniqFrom_NoDup.
Qed.

Lemma elem_of_concat {A} (x : A) (ls : list (list A)) :
  x ∈ concat ls ↔ ∃ l, l ∈ ls ∧ x ∈ l.
Proof.
  induction ls as [|l ls IH]; simpl.
  - rewrite elem_of_nil. split; [done|]. intros (l & Hl & _). by inversion Hl.
  - rewrite elem_of_app, IH. split.
    + intros [?|(l' & ? & ?)]; [exists l | exists l']; set_solver.
    + intros (l' & [->|?]%elem_of_cons & ?); [by left|]. right. by exists l'.
Qed.

Lemma Forall2_elem_of_l {A B} (R : A → B → Prop) (l : list A) (k : list B)
  (x : A) :
  Forall2 R l k → x ∈ l → ∃ y, y ∈ k ∧ R x y.
Proof.
  induction 1 as [|a b l k HR _ IH]; intros Hx; [by inversion Hx|].
  apply elem_of_cons in Hx as [->|Hx].
  - exists b. split; [by left|done].
  - destruct (IH Hx) as (y & ? & ?). exists y. split; [by right|done].
Qed.

Lemma Forall2_elem_of_r {A B} (R : A → B → Prop) (l : list A) (k : list B)
  (y : B) :
  Forall2 R l k → y ∈ k → ∃ x, x ∈ l ∧ R x y.
Proof.
  induction 1 as [|a b l k HR _ IH]; intros Hy; [by inversion Hy|].
  apply elem_of_cons in Hy as [->|Hy].
  - exists a. split; [by left|done].
  - destruct (IH Hy) as (x & ? & ?). exists x. split; [by right|done].
Qed.

(** C8.  Closure expansion is idempotent, for a provider that answers with
    transitive dependency sets: expanding what an expansion returned
    returns it again. *)
Theorem importDeps_idempotent (roots E : Packages) :
  Closure.deep ImportDeps →
  fst (importDeps ImportDeps roots) = Ok E →
  fst (importDeps ImportDeps E) = Ok E.
Proof.
  intros Hdeep. rewrite !importDeps_fst.
  intros (D & HD & [= <-])%bind_Ok.
  destruct (depsLoop_Ok _ _ _ _ HD) as (dss & Hall & -> & _). simpl in *.
  set (E := Uniq (roots ++ concat dss)).
  assert (∀ x, x ∈ path <$> roots ++ concat dss → x ∈ path <$> E) as HE.
  { intros x Hx. apply elem_of_uniqFrom. set_solver. }
  destruct (depsLoop_answered (path <$> E) E [] []) as (D' & -> & HD').
  { apply Forall_forall. intros e He.
    apply (sublist_subseteq _ _ (uniqFrom_sublist ∅ _)) in He.
    assert (∀ ds r, ds ∈ dss → path r ∈ path <$> ds → path r ∈ path <$> E)
      as Hin.
    { intros ds r Hds (r' & Hr' & Hr)%list_elem_of_fmap. apply HE.
      rewrite Hr'. apply list_elem_of_fmap_2, elem_of_app. right.
      apply elem_of_concat. by exists ds. }
    apply elem_of_app in He as [He|He].
    - destruct (Forall2_elem_of_l _ _ _ e Hall He) as (ds & Hds & Hp).
      exists ds. split; [done|]. intros r Hr.
      apply (Hin ds); [done|]. by apply list_elem_of_fmap_2.
    - apply elem_of_concat in He as (ds & Hds & He).
      destruct (Forall2_elem_of_r _ _ _ ds Hall Hds) as (s & Hs & Hp).
      destruct (Hdeep s ds e Hp He) as (ds' & Hds' & Hsub).
      exists ds'. split; [done|]. intros r Hr. apply (Hin ds); auto. }
  simpl. f_equal. apply Uniq_absorbs.
  intros x (r & -> & Hr)%list_elem_of_fmap.
  by apply HD', elem_of_uniqFrom in Hr as [? _].
Qed.

End closure.

(** ** Paths *)

Import filepath.

Lemma append_nil_l (s : string) : "" +:+ s = s.
Proof. reflexivity. Qed.

Lemma length_append (s t : string) :
  String.length (s +:+ t) = String.length s + String.length t.
Proof.
  induction s as [|c s IH]; [done|]. rewrite append_cons. simpl.
  by rewrite IH.
Qed.

(** Whether an element ends is the same at the end of the path and before
    a separator. *)
Lemma element_ends (a b : string) :
  isEmpty (a +:+ String Separator b)
  || startsWith Separator (a +:+ String Separator b)
  = isEmpty a || startsWith Separator a.
Proof. by destruct a. Qed.

(** [Clean] reads its path element by element. *)
Lemma cleanLoop_sep (rooted : bool) (a b : string) :
  ∀ (inElem : bool) (st : cleaner),
    cleanLoop rooted inElem (a +:+ String Separator b) st
    = cleanLoop rooted false b (cleanLoop rooted inElem a st).
Proof.
  remember (String.length a) as n eqn:Hn.
  revert a Hn. induction (lt_wf n) as [n _ IH]. intros a -> inElem st.
  destruct a as [|c a].
  { rewrite append_nil_l. simpl. by destruct inElem. }
  rewrite append_cons.
  assert (∀ f st', cleanLoop rooted f (a +:+ String Separator b) st'
                   = cleanLoop rooted false b (cleanLoop rooted f a st')) as IHa.
  { intros f st'. eapply IH; [|done]. simpl. lia. }
  destruct inElem.
  { simpl. destruct (IsPathSeparator c); apply IHa. }
  cbn [cleanLoop]. rewrite element_ends, !IHa.
  destruct (IsPathSeparator c); [done|].
  destruct (Ascii.eqb c "." && (isEmpty a || startsWith Separator a)); [done|].
  destruct a as [|c' a].
  { rewrite append_nil_l. simpl. by destruct (Ascii.eqb c "."). }
  rewrite append_cons, element_ends.
  destruct (Ascii.eqb c "." && Ascii.eqb c' "."
            && (isEmpty a || startsWith Separator a)); [|done].
  eapply IH; [|done]. simpl. lia.
Qed.

Lemma cleanLoop_copy (rooted : bool) (s : string) (st : cleaner) :
  containsByte Separator s = false →
  cleanLoop rooted true s st = Cleaner (out st +:+ s) (dotdot st).
Proof.
  revert st. induction s as [|c s IH]; intros [o d]; simpl.
  - by rewrite append_nil_r.
  - intros [Hc Hs]%orb_false_elim. unfold IsPathSeparator. rewrite Hc.
    rewrite IH by done. simpl. by rewrite append_assoc.
Qed.

Lemma singleElement_inv (s : string) :
  Matcher.singleElement s = true →
  s ≠ "" ∧ containsByte Separator s = false ∧ s ≠ "." ∧ s ≠ "..".
Proof.
  unfold Matcher.singleElement. rewrite !andb_true_iff, !negb_true_iff.
  intros [[[H1 H2] H3] H4].
  apply String.eqb_neq in H3, H4. split; [by destruct s|done].
Qed.

Lemma cleanLoop_element (rooted : bool) (s : string) (st : cleaner) :
  Matcher.singleElement s = true →
  cleanLoop rooted false s st
  = Cleaner (out (addSlash rooted st) +:+ s) (dotdot st).
Proof.
  intros (Hne & Hsep & Hdot & Hdotdot)%singleElement_inv.
  destruct s as [|c s]; [done|]. simpl in Hsep.
  apply orb_false_elim in Hsep as [Hc Hs].
  assert (cleanLoop rooted true s (append c (addSlash rooted st))
          = Cleaner (out (addSlash rooted st) +:+ String c s) (dotdot st)) as He.
  { rewrite cleanLoop_copy by done. simpl. rewrite append_assoc. f_equal.
    unfold addSlash. by destruct (_ || _). }
  assert (∀ t, containsByte Separator t = false → t ≠ "" →
            isEmpty t || startsWith Separator t = false) as Hend.
  { intros [|c' t]; [done|]. simpl. by intros [-> _]%orb_false_elim. }
  cbn [cleanLoop]. unfold IsPathSeparator. rewrite Hc.
  destruct (Ascii.eqb_spec c ".") as [->|Hc']; cbn [andb];
    [|by destruct s].
  rewrite Hend by (done || congruence).
  destruct s as [|c' s]; [done|]. simpl in Hs.
  apply orb_false_elim in Hs as [Hc2 Hs].
  destruct (Ascii.eqb_spec c' ".") as [->|Hc'']; cbn [andb]; [|done].
  by rewrite Hend by (done || congruence).
Qed.

(** [Join] of a clean directory and a single element. *)
Lemma Join_single (dir n : string) :
  Clean dir = dir → Matcher.singleElement n = true →
  Join [dir; n] = Matcher.child dir n.
Proof.
  intros Hclean Hn. destruct dir as [|c dir]; [done|].
  pose proof (singleElement_inv _ Hn) as (Hne & _).
  cbn [Join isEmpty String.concat]. fold Separator.
  change (String Separator "" +:+ n) with (String Separator n).
  rewrite append_cons. unfold Clean in *.
  destruct (IsPathSeparator c) eqn:Hc.
  - apply Ascii.eqb_eq in Hc as ->.
    rewrite cleanLoop_sep, cleanLoop_element by done.
    set (st := cleanLoop true false dir _) in *. simpl.
    destruct (out st) as [|c o] eqn:Ho; [done|]. simpl in Hclean.
    injection Hclean as Hc Ho'. subst c o. unfold addSlash. rewrite Ho.
    destruct dir as [|c' dir]; simpl.
    + by destruct n.
    + unfold Matcher.child. simpl. by rewrite Ho, append_assoc, !append_cons.
  - rewrite <- append_cons, cleanLoop_sep, cleanLoop_element by done.
    set (st := cleanLoop false false (String c dir) _) in *. simpl.
    destruct (out st) as [|c0 o] eqn:Ho.
    + unfold addSlash. rewrite Ho, <- Hclean. simpl.
      rewrite Ho, append_nil_l. by destruct n.
    + simpl in Hclean. unfold addSlash. rewrite Ho. simpl.
      rewrite Ho, Hclean, append_assoc, !append_cons, append_nil_l.
      unfold Matcher.child.
      destruct (String.eqb_spec (String c dir) ".") as [Heq|Hneq].
      { injection Heq as -> ->. by subst st. }
      destruct (String.eqb_spec (String c dir) "/") as [Heq|_].
      { injection Heq as -> ->. done. }
      done.
Qed.

Lemma Clean_nonempty (dir : string) : Clean dir = dir → dir ≠ "".
Proof. by intros H ->. Qed.

Lemma cutLastSep_element (f : string) :
  containsByte Separator f = false → cutLastSep f = ("", f).
Proof.
  induction f as [|c f IH]; [done|]. simpl.
  intros [Hc Hf]%orb_false_elim. rewrite IH by done.
  unfold IsPathSeparator. by rewrite Hc.
Qed.

Lemma cutLastSep_sep (x f : string) :
  containsByte Separator f = false →
  cutLastSep (x +:+ String Separator f) = (x +:+ String Separator "", f).
Proof.
  intros Hf. induction x as [|c x IH].
  - rewrite !append_nil_l. simpl. by rewrite cutLastSep_element.
  - rewrite !append_cons. simpl. rewrite IH. by destruct x.
Qed.

Lemma chop_sep (x : string) : chop (x +:+ String Separator "") = x.
Proof.
  induction x as [|c x IH]; [done|]. rewrite append_cons. simpl.
  rewrite IH. by destruct x.
Qed.

Lemma hasMeta_append (a b : string) :
  hasMeta (a +:+ b) = hasMeta a || hasMeta b.
Proof.
  induction a as [|c a IH]; [done|]. rewrite append_cons. simpl.
  by rewrite IH, !orb_assoc.
Qed.

(** Where [Glob] looks for the children of a clean directory. *)
Lemma Split_child (dir n : string) :
  Clean dir = dir → containsByte Separator n = false →
  Split (Matcher.child dir n) = (fst (Split (Matcher.child dir n)), n)
  ∧ cleanGlobPath (fst (Split (Matcher.child dir n))) = dir.
Proof.
  intros Hdir Hn. unfold Split, Matcher.child.
  destruct (String.eqb_spec dir ".") as [->|_].
  { by rewrite cutLastSep_element. }
  destruct (String.eqb_spec dir "/") as [->|Hroot].
  { change ("/" +:+ n) with ("" +:+ String Separator n).
    by rewrite cutLastSep_sep. }
  change ("/" +:+ n) with (String Separator n).
  rewrite cutLastSep_sep by done. split; [done|]. simpl.
  unfold cleanGlobPath.
  destruct (isEmpty (dir +:+ String Separator "")) eqn:He.
  { by destruct dir. }
  destruct (String.eqb_spec (dir +:+ String Separator "") (String Separator ""))
    as [Heq|_].
  { apply Clean_nonempty in Hdir. destruct dir as [|c [|c' dir]]; done. }
  apply chop_sep.
Qed.

Lemma hasMeta_child (dir n : string) :
  hasMeta dir = false → hasMeta (Matcher.child dir n) = hasMeta n.
Proof.
  intros Hdir. unfold Matcher.child.
  destruct (String.eqb dir "."); [done|].
  destruct (String.eqb dir "/"); [done|].
  by rewrite hasMeta_append, Hdir.
Qed.

(** ** Glob *)

Lemma pathSeparatorsLimit_pos : ∃ n, pathSeparatorsLimit = S n.
Proof. by exists (99 + 99 * 100). Qed.

(** One level of [Glob]: a pattern whose directory part has no magic
    characters. *)
Lemma Glob_direct (fs : FS) (pattern : string) :
  hasMeta (cleanGlobPath (fst (Split pattern))) = false →
  Glob fs pattern
  = (_ ← Match pattern "";
     if negb (hasMeta pattern)
     then (if Lstat fs pattern then Ok [pattern] else Ok [])
     else
       glob fs (cleanGlobPath (fst (Split pattern))) (snd (Split pattern)) []).
Proof.
  intros Hdir. unfold Glob.
  destruct pathSeparatorsLimit_pos as [n ->]. cbn [globWithLimit].
  destruct (Match pattern "") as [?|e]; [|done]. simpl.
  destruct (hasMeta pattern); [|done]. simpl.
  destruct (Split pattern) as [dir file]. simpl in *. by rewrite Hdir.
Qed.

Lemma globNames_found (dir pattern : string) (names m r : list string) :
  globNames dir pattern names m = Ok r →
  ∃ found, r = m ++ found
    ∧ ∀ x, x ∈ found →
        ∃ n, n ∈ names ∧ Match pattern n = Ok true ∧ x = Join [dir; n].
Proof.
  revert m. induction names as [|n names IH]; intros m; simpl.
  - intros [= <-]. exists []. rewrite app_nil_r. split; [done|].
    intros x Hx. by inversion Hx.
  - intros (matched & Hn & Hloop)%bind_Ok.
    destruct (IH _ Hloop) as (found & -> & Hfound).
    assert (∀ x, x ∈ found → ∃ n0, n0 ∈ n :: names
              ∧ Match pattern n0 = Ok true ∧ x = Join [dir; n0]) as Hfound'.
    { intros x Hx. destruct (Hfound x Hx) as (n0 & ? & ? & ?).
      exists n0. split; [by right|done]. }
    destruct matched.
    + exists (Join [dir; n] :: found). rewrite <- app_assoc. split; [done|].
      intros x [->|Hx]%elem_of_cons; [|by apply Hfound'].
      exists n. split; [by left|done].
    + by exists found.
Qed.

Lemma globNames_failed (dir pattern : string) (names m : list string)
  (e : error) :
  globNames dir pattern names m = Err e →
  ∃ n, n ∈ names ∧ Match pattern n = Err e.
Proof.
  revert m. induction names as [|n names IH]; intros m; simpl; [done|].
  destruct (Match pattern n) as [matched|e'] eqn:Hn; simpl.
  - intros (n0 & ? & ?)%IH. exists n0. split; [by right|done].
  - intros [= ->]. exists n. split; [by left|done].
Qed.

Lemma glob_found (fs : FS) (dir pattern : string) (r : list string) :
  glob fs dir pattern [] = Ok r →
  ∀ x, x ∈ r →
    ∃ n, Matcher.listed fs dir n ∧ x = Join [dir; n]
         ∧ Match pattern n = Ok true.
Proof.
  unfold glob, Matcher.listed. intros H x Hx.
  destruct (Stat fs dir) as [[]|]; try (injection H as <-; by inversion Hx).
  destruct (Readdirnames fs dir) as [names|];
    try (injection H as <-; by inversion Hx).
  destruct (globNames_found _ _ _ _ _ H) as (found & -> & Hfound).
  destruct (Hfound x Hx) as (n & Hn & Hm & ->).
  exists n. split; [|done]. exists names. split; [done|].
  by rewrite merge_sort_Permutation in Hn.
Qed.

Lemma glob_failed (fs : FS) (dir pattern : string) (e : error) :
  glob fs dir pattern [] = Err e → ∃ n, Match pattern n = Err e.
Proof.
  unfold glob. intros H.
  destruct (Stat fs dir) as [[]|]; try done.
  destruct (Readdirnames fs dir) as [names|]; try done.
  destruct (globNames_failed _ _ _ _ _ H) as (n & _ & Hn). by exists n.
Qed.

(** ** Match *)

Lemma hasMeta_cons (c : ascii) (s : string) :
  hasMeta (String c s) = false →
  Ascii.eqb c "*" = false ∧ Ascii.eqb c "?" = false ∧ Ascii.eqb c "[" = false
  ∧ Ascii.eqb c "\" = false ∧ hasMeta s = false.
Proof.
  simpl. intros H. repeat (apply orb_false_elim in H as [H ?]). done.
Qed.

Lemma skipStars_plain (c : ascii) (s : string) :
  Ascii.eqb c "*" = false → skipStars (String c s) = (false, String c s).
Proof. intros H. simpl. by rewrite H. Qed.

(** [scan] goes through the bytes that are not magic. *)
Lemma scan_plain (lit p : string) :
  hasMeta lit = false →
  scan false (lit +:+ p) = (lit +:+ fst (scan false p), snd (scan false p)).
Proof.
  induction lit as [|c lit IH]; intros Hlit.
  - rewrite !append_nil_l. by destruct (scan false p).
  - apply hasMeta_cons in Hlit as (Hstar & _ & Hbra & Hesc & Hlit).
    rewrite !append_cons. cbn [scan]. rewrite Hesc, Hbra, Hstar, IH by done.
    simpl. by destruct (Ascii.eqb c "]").
Qed.

Lemma scan_nil (b : bool) : scan b "" = ("", "").
Proof. done. Qed.

(** A chunk without magic characters matches itself. *)
Lemma matchChunkLoop_plain (lit t : string) (fuel : nat) :
  hasMeta lit = false → String.length lit < fuel →
  matchChunkLoop fuel lit (lit +:+ t) false = (t, true, None).
Proof.
  revert fuel. induction lit as [|c lit IH]; intros fuel Hlit Hfuel.
  - destruct fuel; [lia|]. done.
  - destruct fuel as [|fuel]; [simpl in Hfuel; lia|].
    apply hasMeta_cons in Hlit as (_ & Hq & Hbra & Hesc & Hlit).
    rewrite append_cons. cbn [matchChunkLoop]. rewrite Hbra, Hq, Hesc.
    simpl. rewrite Ascii.eqb_refl. simpl. apply IH; [done|].
    simpl in Hfuel. lia.
Qed.

Lemma Match_literal (p : string) :
  hasMeta p = false → Match p p = Ok true.
Proof.
  intros Hp. destruct p as [|c p]; [done|].
  unfold Match. cbn [matchLoop isEmpty]. unfold scanChunk.
  pose proof (hasMeta_cons _ _ Hp) as (Hstar & _).
  rewrite skipStars_plain by done.
  rewrite <- (append_nil_r (String c p)) at 1.
  rewrite scan_plain, scan_nil by done. cbn [fst snd].
  rewrite append_nil_r. simpl andb. cbv iota.
  unfold matchChunk.
  rewrite <- (append_nil_r (String c p)) at 3.
  rewrite matchChunkLoop_plain by (done || lia). done.
Qed.

(** *** The fuel of the loops is enough *)

Lemma scan_shorter (n : nat) :
  ∀ (p : string) (b : bool),
    String.length p ≤ n → String.length (snd (scan b p)) ≤ String.length p.
Proof.
  induction n as [|n IH]; intros [|c p] b Hn; simpl in *; try lia.
  assert (∀ b', String.length (snd (scan b' p)) ≤ String.length p) as IHp.
  { intros b'. apply IH. lia. }
  destruct (Ascii.eqb c "\").
  { destruct p as [|c' p]; [simpl; lia|].
    destruct (scan b p) as [chunk rest] eqn:Hs. simpl.
    pose proof (IH p b ltac:(simpl in Hn; lia)) as Hp. rewrite Hs in Hp.
    simpl in Hp. lia. }
  destruct (Ascii.eqb c "[").
  { specialize (IHp true). destruct (scan true p). simpl in *. lia. }
  destruct (Ascii.eqb c "]").
  { specialize (IHp false). destruct (scan false p). simpl in *. lia. }
  destruct (Ascii.eqb c "*" && negb b) eqn:Hstar; [simpl; lia|].
  specialize (IHp b). destruct (scan b p). simpl in *. lia.
Qed.

Lemma skipStars_shorter (p : string) :
  String.length (snd (skipStars p)) ≤ String.length p.
Proof.
  induction p as [|c p IH]; simpl; [lia|].
  destruct (Ascii.eqb c "*"); simpl; lia.
Qed.

Lemma scan_progress (c : ascii) (p : string) :
  Ascii.eqb c "*" = false →
  String.length (snd (scan false (String c p))) ≤ String.length p.
Proof.
  intros Hc. cbn [scan]. rewrite Hc. simpl.
  pose proof (scan_shorter (String.length p) p) as Hp.
  destruct (Ascii.eqb c "\").
  { destruct p as [|c' p]; [simpl; lia|].
    pose proof (scan_shorter (String.length p) p false ltac:(lia)).
    destruct (scan false p). simpl in *. lia. }
  destruct (Ascii.eqb c "[").
  { specialize (Hp true ltac:(lia)). destruct (scan true p). simpl in *. lia. }
  destruct (Ascii.eqb c "]");
    specialize (Hp false ltac:(lia)); destruct (scan false p); simpl in *; lia.
Qed.

Lemma scanChunk_shorter (c : ascii) (p : string) :
  String.length (snd (scanChunk (String c p))) ≤ String.length p.
Proof.
  unfold scanChunk. cbn [skipStars].
  destruct (Ascii.eqb c "*") eqn:Hc.
  - pose proof (skipStars_shorter p) as Hp.
    pose proof (scan_shorter _ (snd (skipStars p)) false (Nat.le_refl _)) as Hs.
    destruct (scan false (snd (skipStars p))). simpl in *. lia.
  - pose proof (scan_progress c p Hc) as Hs.
    destruct (scan false (String c p)). simpl in *. lia.
Qed.

Lemma remainder_fuel (f1 : nat) :
  ∀ (f2 : nat) (p : string),
    String.length p < f1 → String.length p < f2 →
    remainder f1 p = remainder f2 p.
Proof.
  induction f1 as [|f1 IH]; intros [|f2] p H1 H2; try lia.
  destruct p as [|c p]; [done|]. cbn [remainder isEmpty].
  pose proof (scanChunk_shorter c p) as Hs.
  destruct (scanChunk (String c p)) as [[star chunk] rest].
  destruct (matchChunk chunk "") as [[t ok] [e|]]; [done|].
  simpl in *. apply IH; lia.
Qed.

(** *** Matching the empty name: the validation of the pattern *)

Lemma matchChunkLoop_failed (fuel : nat) :
  ∀ chunk s, snd (fst (matchChunkLoop fuel chunk s true)) = false.
Proof.
  induction fuel as [|fuel IH]; intros chunk s; [done|].
  destruct chunk as [|c chunk]; [done|]. cbn [matchChunkLoop orb].
  destruct (Ascii.eqb c "[").
  { destruct (ranges _ _ _ _ _) as [[matched chunk3]|e]; [|done]. apply IH. }
  destruct (Ascii.eqb c "?"); [apply IH|].
  destruct (Ascii.eqb c "\"); [|apply IH].
  destruct chunk; [done|apply IH].
Qed.

Lemma matchChunkLoop_empty (fuel : nat) (c : ascii) (chunk : string) :
  matchChunkLoop fuel (String c chunk) "" false
  = matchChunkLoop fuel (String c chunk) "" true.
Proof. by destruct fuel. Qed.

Lemma matchChunk_empty (c : ascii) (chunk : string) :
  ∃ err, matchChunk (String c chunk) "" = ("", false, err)
         ∨ ∃ t, matchChunk (String c chunk) "" = (t, false, err).
Proof.
  unfold matchChunk. rewrite matchChunkLoop_empty.
  pose proof (matchChunkLoop_failed (S (String.length (String c chunk)))
                (String c chunk) "") as H.
  destruct (matchChunkLoop _ _ _ _) as [[t ok] err]. simpl in H. subst ok.
  exists err. right. by exists t.
Qed.

Lemma matchChunkLoop_literal (lit chunk s : string) (fuel : nat) :
  hasMeta lit = false →
  matchChunkLoop (String.length lit + fuel) (lit +:+ chunk) s true
  = matchChunkLoop fuel chunk s true.
Proof.
  induction lit as [|c lit IH]; intros Hlit; [done|].
  apply hasMeta_cons in Hlit as (_ & Hq & Hbra & Hesc & Hlit).
  rewrite append_cons. cbn [String.length Nat.add matchChunkLoop orb].
  rewrite Hbra, Hq, Hesc. by apply IH.
Qed.

(** A chunk is empty only at the end of the pattern, after stars. *)
Lemma scanChunk_empty_chunk (c : ascii) (p : string) (star : bool)
  (rest : string) :
  scanChunk (String c p) = (star, "", rest) → star = true ∧ rest = "".
Proof.
  unfold scanChunk. cbn [skipStars].
  destruct (Ascii.eqb c "*") eqn:Hc.
  - assert (∀ q, snd (skipStars q) = "" ∨ ∃ c' q', snd (skipStars q) = String c' q'
              ∧ Ascii.eqb c' "*" = false) as Hq.
    { induction q as [|c' q IH]; [by left|]. simpl.
      destruct (Ascii.eqb c' "*") eqn:Hc'; [done|]. right. by exists c', q. }
    destruct (Hq p) as [->|(c' & q' & -> & Hc')]; [by intros [= <- <-]|].
    cbn [scan]. rewrite Hc'. simpl.
    destruct (Ascii.eqb c' "\");
      [by destruct q' as [|? q']; [|destruct (scan false q')]|].
    destruct (Ascii.eqb c' "["); [by destruct (scan true q')|].
    destruct (Ascii.eqb c' "]"); by destruct (scan false q').
  - cbn [scan]. rewrite Hc. simpl.
    destruct (Ascii.eqb c "\");
      [by destruct p as [|? p]; [|destruct (scan false p)]|].
    destruct (Ascii.eqb c "["); [by destruct (scan true p)|].
    destruct (Ascii.eqb c "]"); by destruct (scan false p).
Qed.

Lemma remainder_S (fuel : nat) (c : ascii) (p : string) :
  remainder (S fuel) (String c p)
  = let '(_, chunk, rest) := scanChunk (String c p) in
    match matchChunk chunk "" with
    | (_, _, Some e) => Err e
    | (_, _, None) => remainder fuel rest
    end.
Proof. reflexivity. Qed.

(** [Match] answers an error for the empty name exactly when the
    validation of the whole pattern does. *)
Lemma Match_empty (p : string) (e : error) :
  Match p "" = Err e ↔ remainder (S (String.length p)) p = Err e.
Proof.
  destruct p as [|c p]; [done|].
  unfold Match. rewrite remainder_S. cbn [matchLoop isEmpty].
  pose proof (scanChunk_shorter c p) as Hshort.
  destruct (scanChunk (String c p)) as [[star chunk] rest] eqn:Hscan.
  simpl in Hshort. destruct chunk as [|c' chunk].
  - apply scanChunk_empty_chunk in Hscan as [-> ->]. done.
  - rewrite andb_false_r.
    destruct (matchChunk_empty c' chunk) as (err & [H|[t H]]); rewrite H;
      (destruct err as [e'|]; [done|]);
      rewrite (remainder_fuel (S (String.length rest))
                 (String.length (String c p))) by (simpl; lia);
      by destruct star.
Qed.

(** Bytes that are not magic, put before a pattern, leave its validation
    as it is. *)
Lemma remainder_literal (lit p : string) :
  hasMeta lit = false → lit ≠ "" →
  remainder (S (String.length (lit +:+ p))) (lit +:+ p)
  = remainder (S (String.length p)) p.
Proof.
  intros Hlit Hne. destruct lit as [|c lit]; [done|]. clear Hne.
  pose proof (hasMeta_cons _ _ Hlit) as (Hstar & _).
  rewrite append_cons, remainder_S, <- append_cons. unfold scanChunk.
  rewrite append_cons, skipStars_plain, <- append_cons, scan_plain by done.
  cbn [fst snd]. unfold matchChunk. rewrite append_cons, matchChunkLoop_empty.
  rewrite <- append_cons, length_append, plus_n_Sm.
  rewrite matchChunkLoop_literal by done.
  destruct p as [|c0 p].
  { done. }
  destruct (Ascii.eqb_spec c0 "*") as [->|Hc0%Ascii.eqb_neq].
  { change (scan false (String "*" p)) with ("", String "*" p).
    cbn [fst snd String.length matchChunkLoop].
    apply remainder_fuel; rewrite ?length_append; simpl; lia. }
  rewrite (remainder_S _ c0 p). unfold scanChunk.
  rewrite skipStars_plain by done.
  pose proof (scan_progress c0 p Hc0) as Hshort.
  destruct (scan false (String c0 p)) as [c1 r1]. cbn [fst snd] in *.
  unfold matchChunk.
  assert (snd (matchChunkLoop (S (String.length c1)) c1 "" true)
          = snd (matchChunkLoop (S (String.length c1)) c1 "" false)) as Herr.
  { destruct c1; [done|]. by rewrite matchChunkLoop_empty. }
  destruct (matchChunkLoop _ c1 "" true) as [[t ok] err].
  destruct (matchChunkLoop _ c1 "" false) as [[t' ok'] err'].
  simpl in Herr. subst err'. destruct err as [e|]; [done|].
  apply remainder_fuel; rewrite ?length_append; simpl; lia.
Qed.

Lemma Match_empty_literal (lit p : string) (e : error) :
  hasMeta lit = false →
  Match (lit +:+ p) "" = Err e ↔ Match p "" = Err e.
Proof.
  intros Hlit. destruct lit as [|c lit]; [done|].
  by rewrite !Match_empty, remainder_literal.
Qed.

(** *** The error of [Match] does not depend on the name *)

Lemma ranges_rest (fuel : nat) :
  ∀ chunk r matched nrange r' matched',
    match ranges fuel chunk r matched nrange,
          ranges fuel chunk r' matched' nrange with
    | Ok (_, rest), Ok (_, rest') => rest = rest'
    | Err e, Err e' => e = e'
    | _, _ => False
    end.
Proof.
  induction fuel as [|fuel IH]; intros chunk r matched nrange r' matched'; [done|].
  cbn [ranges].
  destruct (startsWith "]" chunk && (0 <? nrange)); [done|].
  destruct (getEsc chunk) as [[lo chunk1]|e]; simpl; [|done].
  destruct (startsWith "-" chunk1); [|apply IH].
  destruct (getEsc _) as [[hi chunk2]|e]; simpl; [apply IH|done].
Qed.

Lemma matchChunkLoop_error (fuel : nat) :
  ∀ chunk s failed s' failed',
    snd (matchChunkLoop fuel chunk s failed)
    = snd (matchChunkLoop fuel chunk s' failed').
Proof.
  induction fuel as [|fuel IH]; intros chunk s failed s' failed'; [done|].
  destruct chunk as [|c chunk].
  { simpl. by destruct failed, failed'. }
  cbn [matchChunkLoop].
  destruct (Ascii.eqb c "[").
  { set (rs := if failed || isEmpty s then _ else _).
    set (rs' := if failed' || isEmpty s' then _ else _).
    destruct rs as [r t], rs' as [r' t'].
    pose proof (ranges_rest
      (S (String.length (if startsWith "^" chunk then skip 1 chunk else chunk)))
      (if startsWith "^" chunk then skip 1 chunk else chunk)
      r false 0 r' false) as Hr.
    destruct (ranges _ _ r _ _) as [[m rest]|e],
             (ranges _ _ r' _ _) as [[m' rest']|e']; try done.
    - subst rest'. apply IH.
    - by subst e'. }
  destruct (Ascii.eqb c "?").
  { destruct (failed || isEmpty s), (failed' || isEmpty s');
      repeat (destruct (utf8.DecodeRuneInString _)); apply IH. }
  destruct (Ascii.eqb c "\").
  { destruct chunk as [|c' chunk]; [done|].
    destruct (failed || isEmpty s), (failed' || isEmpty s'); apply IH. }
  destruct (failed || isEmpty s), (failed' || isEmpty s'); apply IH.
Qed.

Lemma matchChunk_error (chunk s s' : string) :
  snd (matchChunk chunk s) = snd (matchChunk chunk s').
Proof. apply matchChunkLoop_error. Qed.

Lemma matchChunkLoop_ok (fuel : nat) :
  ∀ chunk s failed t err,
    matchChunkLoop fuel chunk s failed = (t, true, err) → err = None.
Proof.
  induction fuel as [|fuel IH]; intros chunk s failed t err; [done|].
  destruct chunk as [|c chunk].
  { simpl. destruct failed; congruence. }
  cbn [matchChunkLoop].
  destruct (Ascii.eqb c "[").
  { destruct (if failed || isEmpty s then _ else _) as [r t'].
    destruct (ranges _ _ _ _ _) as [[m rest]|e]; [apply IH|done]. }
  destruct (Ascii.eqb c "?").
  { destruct (failed || isEmpty s); [apply IH|].
    destruct (utf8.DecodeRuneInString s). apply IH. }
  destruct (Ascii.eqb c "\").
  { destruct chunk as [|c' chunk]; [done|].
    destruct (failed || isEmpty s); apply IH. }
  destruct (failed || isEmpty s); apply IH.
Qed.

Lemma skipping_Failed (chunk : string) (last : bool) (name : string)
  (e : error) :
  skipping chunk last name = Failed e →
  ∃ s, snd (matchChunk chunk s) = Some e.
Proof.
  induction name as [|c name IH]; [done|]. cbn [skipping].
  destruct (IsPathSeparator c); [done|].
  destruct (matchChunk chunk name) as [[t ok] err] eqn:Hm.
  destruct ok.
  - destruct (last && negb (isEmpty t)); [done|done].
  - destruct err as [e'|]; [|done]. intros [= ->]. exists name. by rewrite Hm.
Qed.

Lemma matchLoop_S (fuel : nat) (c : ascii) (p name : string) :
  matchLoop (S fuel) (String c p) name
  = let '(star, chunk, pattern) := scanChunk (String c p) in
    if star && isEmpty chunk then Ok (negb (containsByte Separator name))
    else
      let invalid := remainder (S (String.length pattern)) pattern in
      let skip :=
        if star then
          match skipping chunk (isEmpty pattern) name with
          | Found t => matchLoop fuel pattern t
          | Failed e => Err e
          | NotFound => invalid
          end
        else invalid in
      match matchChunk chunk name with
      | (t, true, _) =>
          if isEmpty t || negb (isEmpty pattern) then matchLoop fuel pattern t
          else skip
      | (_, false, Some e) => Err e
      | (_, false, None) => skip
      end.
Proof.
  cbn [matchLoop isEmpty].
  destruct (scanChunk (String c p)) as [[star chunk] rest].
  destruct (star && isEmpty chunk); [done|].
  by destruct (matchChunk chunk name) as [[t []] [e|]].
Qed.

(** An error of [Match] is an error of the validation of the pattern. *)
Lemma matchLoop_Err (fuel : nat) :
  ∀ p name e,
    String.length p < fuel →
    matchLoop fuel p name = Err e → remainder fuel p = Err e.
Proof.
  induction fuel as [|fuel IH]; intros p name e Hfuel; [lia|].
  destruct p as [|c p]; [done|].
  rewrite matchLoop_S, remainder_S.
  pose proof (scanChunk_shorter c p) as Hshort.
  destruct (scanChunk (String c p)) as [[star chunk] rest].
  simpl in Hshort, Hfuel.
  destruct (star && isEmpty chunk); [done|]. cbv zeta.
  pose proof (matchChunk_error chunk name "") as Herr.
  assert (∀ t, matchLoop fuel rest t = Err e → remainder fuel rest = Err e)
    as IH' by (intros t; apply IH; lia).
  assert (remainder (S (String.length rest)) rest = Err e →
          remainder fuel rest = Err e) as Hinv.
  { intros <-. apply remainder_fuel; lia. }
  assert (snd (matchChunk chunk "") = None →
          (if star then
             match skipping chunk (isEmpty rest) name with
             | Found t => matchLoop fuel rest t
             | Failed e => Err e
             | NotFound => remainder (S (String.length rest)) rest
             end
           else remainder (S (String.length rest)) rest) = Err e →
          remainder fuel rest = Err e) as Hskip.
  { intros Hnone. destruct star; [|done].
    destruct (skipping chunk (isEmpty rest) name) as [t|e'|] eqn:Hsk;
      [apply IH' | | done].
    apply skipping_Failed in Hsk as [s Hs].
    rewrite (matchChunk_error chunk s ""), Hnone in Hs. done. }
  destruct (matchChunk chunk name) as [[t ok] err] eqn:Hm.
  destruct (matchChunk chunk "") as [[t0 ok0] err0]. simpl in Herr. subst err0.
  destruct ok.
  - apply matchChunkLoop_ok in Hm as ->.
    destruct (isEmpty t || negb (isEmpty rest)); [apply IH'|by apply Hskip].
  - destruct err as [e'|]; [done|]. by apply Hskip.
Qed.

(** A pattern is well formed exactly when [Match] accepts to try it on the
    empty name, which is how [Glob] checks it. *)
Lemma wellFormed_Match_empty (p : string) :
  Matcher.wellFormed p ↔ ∀ e, Match p "" ≠ Err e.
Proof.
  split; [by intros H e; apply H|].
  intros H name e Hname. apply (H e), Match_empty.
  apply (matchLoop_Err _ _ name); [lia|exact Hname].
Qed.

(** *** The only error of [Match] is [ErrBadPattern] *)

Lemma getEsc_bad (chunk : string) (e : error) :
  getEsc chunk = Err e → e = ErrBadPattern.
Proof.
  unfold getEsc.
  destruct (isEmpty chunk || startsWith "-" chunk || startsWith "]" chunk);
    [congruence|].
  destruct (if startsWith "\" chunk then Some (skip 1 chunk) else None)
    as [[|c chunk']|]; try congruence;
    cbn [default];
    destruct (utf8.DecodeRuneInString _) as [r n];
    destruct ((r =? utf8.RuneError)%N && (n =? 1)); try congruence;
    destruct (isEmpty _); congruence.
Qed.

Lemma ranges_bad (fuel : nat) :
  ∀ chunk r matched nrange e,
    ranges fuel chunk r matched nrange = Err e → e = ErrBadPattern.
Proof.
  induction fuel as [|fuel IH]; intros chunk r matched nrange e;
    [simpl; congruence|].
  cbn [ranges].
  destruct (startsWith "]" chunk && (0 <? nrange)); [done|].
  destruct (getEsc chunk) as [[lo chunk1]|e'] eqn:Hlo; simpl;
    [|intros [= <-]; by apply getEsc_bad in Hlo].
  destruct (startsWith "-" chunk1); [|apply IH].
  match goal with
  | |- context [getEsc ?x ≫= _] =>
      destruct (getEsc x) as [[hi chunk2]|e'] eqn:Hhi; simpl
  end; [apply IH|intros [= <-]; by apply getEsc_bad in Hhi].
Qed.

Lemma matchChunkLoop_bad (fuel : nat) :
  ∀ chunk s failed e,
    snd (matchChunkLoop fuel chunk s failed) = Some e → e = ErrBadPattern.
Proof.
  induction fuel as [|fuel IH]; intros chunk s failed e;
    [simpl; congruence|].
  destruct chunk as [|c chunk].
  { simpl. by destruct failed. }
  cbn [matchChunkLoop].
  destruct (Ascii.eqb c "[").
  { destruct (if failed || isEmpty s then _ else _) as [r t].
    destruct (ranges _ _ _ _ _) as [[m rest]|e'] eqn:Hr; [apply IH|].
    simpl. intros [= <-]. by apply ranges_bad in Hr. }
  destruct (Ascii.eqb c "?").
  { destruct (failed || isEmpty s); [apply IH|].
    destruct (utf8.DecodeRuneInString s). apply IH. }
  destruct (Ascii.eqb c "\").
  { destruct chunk as [|c' chunk]; [simpl; congruence|].
    destruct (failed || isEmpty s); apply IH. }
  destruct (failed || isEmpty s); apply IH.
Qed.

Lemma remainder_bad (fuel : nat) :
  ∀ p e, remainder fuel p = Err e → e = ErrBadPattern.
Proof.
  induction fuel as [|fuel IH]; intros p e; [simpl; congruence|].
  destruct p as [|c p]; [done|]. rewrite remainder_S.
  destruct (scanChunk (String c p)) as [[star chunk] rest].
  destruct (matchChunk chunk "") as [[t ok] [e'|]] eqn:Hm; [|apply IH].
  intros [= <-].
  apply (matchChunkLoop_bad (S (String.length chunk)) chunk "" false).
  unfold matchChunk in Hm. by rewrite Hm.
Qed.

Lemma Match_bad (p name : string) (e : error) :
  Match p name = Err e → e = ErrBadPattern.
Proof.
  intros H. apply matchLoop_Err in H; [|lia]. by apply remainder_bad in H.
Qed.

(** *** More fuel changes nothing: the loops end on their own *)

Lemma length_skip (n : nat) (s : string) :
  String.length (skip n s) = String.length s - n.
Proof.
  revert s. induction n as [|n IH]; intros [|c s]; simpl; done.
Qed.

Lemma DecodeRuneInString_size (c : ascii) (s : string) :
  1 ≤ snd (utf8.DecodeRuneInString (String c s)).
Proof.
  unfold utf8.DecodeRuneInString.
  repeat
    match goal with
    | |- context [if ?b then _ else _] => destruct b
    | |- context [match ?x with _ => _ end] => destruct x
    end; simpl; lia.
Qed.

Lemma getEsc_shorter (chunk rest : string) (r : N) :
  getEsc chunk = Ok (r, rest) → String.length rest < String.length chunk.
Proof.
  unfold getEsc. destruct chunk as [|c chunk]; [done|].
  destruct (isEmpty _ || _ || _); [done|].
  destruct (startsWith "\" (String c chunk)).
  - cbn [skip]. destruct chunk as [|c' chunk]; [done|]. cbn [default].
    pose proof (DecodeRuneInString_size c' chunk) as Hn.
    destruct (utf8.DecodeRuneInString _) as [r' n].
    destruct ((r' =? utf8.RuneError)%N && (n =? 1)); [done|].
    destruct (isEmpty _); [done|]. intros [= _ <-].
    rewrite length_skip. simpl in *. lia.
  - cbn [default].
    pose proof (DecodeRuneInString_size c chunk) as Hn.
    destruct (utf8.DecodeRuneInString _) as [r' n].
    destruct ((r' =? utf8.RuneError)%N && (n =? 1)); [done|].
    destruct (isEmpty _); [done|]. intros [= _ <-].
    rewrite length_skip. simpl in *. lia.
Qed.

Lemma ranges_shorter (fuel : nat) :
  ∀ chunk r matched nrange matched' rest,
    ranges fuel chunk r matched nrange = Ok (matched', rest) →
    String.length rest < String.length chunk.
Proof.
  induction fuel as [|fuel IH]; intros chunk r matched nrange matched' rest;
    [done|].
  cbn [ranges].
  destruct (startsWith "]" chunk && (0 <? nrange)) eqn:Hend.
  { intros [= _ <-]. destruct chunk; [done|]. simpl. lia. }
  destruct (getEsc chunk) as [[lo chunk1]|e] eqn:Hlo; [|done].
  apply getEsc_shorter in Hlo. cbn [mbind result_bind].
  destruct (startsWith "-" chunk1).
  - destruct (getEsc (skip 1 chunk1)) as [[hi chunk2]|e] eqn:Hhi; [|done].
    apply getEsc_shorter in Hhi. rewrite length_skip in Hhi.
    cbn [mbind result_bind]. intros H%IH. lia.
  - cbn [mbind result_bind]. intros H%IH. lia.
Qed.

Lemma ranges_fuel (f1 : nat) :
  ∀ f2 chunk r matched nrange,
    String.length chunk < f1 → String.length chunk < f2 →
    ranges f1 chunk r matched nrange = ranges f2 chunk r matched nrange.
Proof.
  induction f1 as [|f1 IH]; intros [|f2] chunk r matched nrange H1 H2;
    try lia.
  cbn [ranges].
  destruct (startsWith "]" chunk && (0 <? nrange)); [done|].
  destruct (getEsc chunk) as [[lo chunk1]|e] eqn:Hlo; [|done].
  apply getEsc_shorter in Hlo. cbn [mbind result_bind].
  destruct (startsWith "-" chunk1).
  - destruct (getEsc (skip 1 chunk1)) as [[hi chunk2]|e] eqn:Hhi; [|done].
    apply getEsc_shorter in Hhi. rewrite length_skip in Hhi.
    cbn [mbind result_bind]. apply IH; lia.
  - cbn [mbind result_bind]. apply IH; lia.
Qed.

Lemma matchChunkLoop_fuel (f1 : nat) :
  ∀ f2 chunk s failed,
    String.length chunk < f1 → String.length chunk < f2 →
    matchChunkLoop f1 chunk s failed = matchChunkLoop f2 chunk s failed.
Proof.
  induction f1 as [|f1 IH]; intros [|f2] chunk s failed H1 H2; try lia.
  destruct chunk as [|c chunk]; [done|]. simpl in H1, H2.
  cbn [matchChunkLoop].
  destruct (Ascii.eqb c "[").
  { destruct (if failed || isEmpty s then _ else _) as [r t].
    destruct (ranges _ _ _ _ _) as [[m rest]|e] eqn:Hr; [|done].
    apply ranges_shorter in Hr.
    assert (String.length rest < String.length chunk).
    { destruct (startsWith "^" chunk); [|done].
      rewrite length_skip in Hr. lia. }
    apply IH; lia. }
  destruct (Ascii.eqb c "?").
  { destruct (failed || isEmpty s); [apply IH; lia|].
    destruct (utf8.DecodeRuneInString s). apply IH; lia. }
  destruct (Ascii.eqb c "\").
  { destruct chunk as [|c' chunk]; [done|]. simpl in H1, H2.
    destruct (failed || isEmpty s); apply IH; lia. }
  destruct (failed || isEmpty s); apply IH; lia.
Qed.

Lemma matchLoop_fuel (f1 : nat) :
  ∀ f2 p name,
    String.length p < f1 → String.length p < f2 →
    matchLoop f1 p name = matchLoop f2 p name.
Proof.
  induction f1 as [|f1 IH]; intros [|f2] p name H1 H2; try lia.
  destruct p as [|c p]; [done|]. rewrite !matchLoop_S.
  pose proof (scanChunk_shorter c p) as Hshort.
  destruct (scanChunk (String c p)) as [[star chunk] rest].
  simpl in Hshort, H1, H2.
  destruct (star && isEmpty chunk); [done|]. cbv zeta.
  assert (∀ t, matchLoop f1 rest t = matchLoop f2 rest t) as IH'
    by (intros t; apply IH; lia).
  destruct (matchChunk chunk name) as [[t []] [e|]]; rewrite ?IH'; try done;
    destruct star; try done;
    destruct (skipping chunk (isEmpty rest) name); by rewrite ?IH'.
Qed.

(** ** The File Matcher *)

(** What [Join] puts before a single element. *)
Lemma child_literal (dir n : string) :
  hasMeta dir = false →
  ∃ lit, Matcher.child dir n = lit +:+ n ∧ hasMeta lit = false.
Proof.
  intros Hdir. unfold Matcher.child.
  destruct (String.eqb dir "."); [by exists ""|].
  destruct (String.eqb dir "/"); [by exists "/"|].
  exists (dir +:+ "/"). rewrite append_assoc. split; [done|].
  by rewrite hasMeta_append, Hdir.
Qed.

(** [match] in a clean directory without magic characters, for a pattern
    of a single element. *)
Lemma match_direct (fs : FS) (dir pattern : string) :
  Clean dir = dir → hasMeta dir = false →
  Matcher.singleElement pattern = true →
  match_ fs dir pattern
  = (_ ← Match (Matcher.child dir pattern) "";
     if negb (hasMeta pattern)
     then (if Lstat fs (Matcher.child dir pattern)
           then Ok [Matcher.child dir pattern] else Ok [])
     else glob fs dir pattern []).
Proof.
  intros Hclean Hdir Hp. unfold match_.
  pose proof (singleElement_inv _ Hp) as (_ & Hsep & _).
  destruct (Split_child dir pattern Hclean Hsep) as [Hsplit Hpath].
  rewrite Join_single, Glob_direct by (done || by rewrite Hpath).
  by rewrite hasMeta_child, Hpath, Hsplit.
Qed.

(** C5, as amended.  In a clean directory whose path has no magic
    character, and for a pattern that is a single path element, [match]
    returns only entries that the directory lists and whose names match the
    pattern (provided the directory lists what [Lstat] finds in it under
    the name of the pattern, when the pattern has no magic character). *)
Theorem match_single_level (fs : FS) (dir pattern : string) :
  Clean dir = dir → hasMeta dir = false →
  Matcher.singleElement pattern = true →
  (Lstat fs (Join [dir; pattern]) = true → Matcher.listed fs dir pattern) →
  Matcher.onlyDirectEntries fs dir pattern.
Proof.
  intros Hclean Hdir Hp Hlisted ms m.
  rewrite match_direct by done. rewrite Join_single in Hlisted by done.
  intros (b & _ & Hms)%bind_Ok Hm.
  destruct (hasMeta pattern) eqn:Hmeta; simpl in Hms.
  - destruct (glob_found _ _ _ _ Hms m Hm) as (n & Hn & -> & Hmatch).
    by exists n.
  - destruct (Lstat fs (Matcher.child dir pattern)) eqn:Hl;
      injection Hms as <-; [|by inversion Hm].
    apply list_elem_of_singleton in Hm as ->.
    exists pattern. split; [by apply Hlisted|].
    split; [by rewrite Join_single|by apply Match_literal].
Qed.

(** C6, as amended.  In a clean directory whose path has no magic
    character, and for a pattern that is a single path element: when the
    directory does not exist and the pattern is well formed, [match]
    returns the empty sequence and no error; and when [match] fails, the
    error is [ErrBadPattern] and the pattern is malformed. *)
Theorem match_missing_directory (fs : FS) (dir pattern : string) :
  Clean dir = dir → hasMeta dir = false →
  Matcher.singleElement pattern = true →
  Matcher.missingIsEmpty fs dir pattern
  ∧ Matcher.failsOnlyOnMalformed fs dir pattern.
Proof.
  intros Hclean Hdir Hp.
  destruct (child_literal dir pattern Hdir) as (lit & Hchild & Hlit).
  split.
  - intros Hwf (Hl & Hs & Hin). rewrite match_direct by done.
    destruct (Match (Matcher.child dir pattern) "") as [b|e] eqn:Hm.
    + simpl. destruct (hasMeta pattern); simpl.
      * unfold glob. by rewrite Hs.
      * specialize (Hin pattern Hp). rewrite Join_single in Hin by done.
        by rewrite Hin.
    + rewrite Hchild in Hm. apply Match_empty_literal in Hm; [|done].
      by destruct (Hwf "" e).
  - intros e. rewrite match_direct by done.
    destruct (Match (Matcher.child dir pattern) "") as [b|e'] eqn:Hm; simpl.
    + destruct (hasMeta pattern); simpl.
      * intros (n & Hn)%glob_failed. split; [by apply Match_bad in Hn|].
        intros Hwf. by destruct (Hwf n e).
      * by destruct (Lstat fs (Matcher.child dir pattern)).
    + intros [= <-]. rewrite Hchild in Hm.
      apply Match_empty_literal in Hm; [|done].
      split; [by apply Match_bad in Hm|]. intros Hwf. by destruct (Hwf "" e').
Qed.

(** ** The properties on the example *)

Import Sample.

(** C2 fails as stated: with [p] and [q] given and [p] importing [q], the
    provider is asked about [q] when [deps] already holds [q]. *)
Lemma importDeps_requeries :
  ¬ Closure.neverRequeries Sample.ImportDeps [P; Q].
Proof.
  intros H. apply (H (Lookup Q [Q])).
  - change (snd (importDeps Sample.ImportDeps [P; Q]))
      with [Lookup P []; Lookup Q [Q]].
    apply elem_of_cons. right. apply elem_of_cons. by left.
  - apply elem_of_cons. by left.
Qed.

Lemma importDeps_one_call_each_witness :
  fst (importDeps Sample.ImportDeps [P; Q]) = Ok [P; Q]
  ∧ asked <$> snd (importDeps Sample.ImportDeps [P; Q]) = [P; Q]
  ∧ NoDup (path <$> [P; Q]).
Proof.
  split; [reflexivity|].
  destruct (proj2 (importDeps_one_call_each Sample.ImportDeps [P; Q])
              [P; Q] eq_refl) as (Hcalls & _ & Hnodup).
  split; assumption.
Defined.

Lemma Sample_deep : Closure.deep Sample.ImportDeps.
Proof.
  intros p ds q. unfold Sample.ImportDeps.
  destruct (String.eqb (path p) "p"); intros [= <-] Hq.
  - apply list_elem_of_singleton in Hq as ->. exists []. split; [done|].
    intros r Hr. by inversion Hr.
  - by inversion Hq.
Qed.

Lemma importDeps_idempotent_witness :
  Closure.deep Sample.ImportDeps
  ∧ fst (importDeps Sample.ImportDeps [P]) = Ok [P; Q]
  ∧ fst (importDeps Sample.ImportDeps [P; Q]) = Ok [P; Q].
Proof.
  split; [exact Sample_deep|]. split; [reflexivity|].
  apply (importDeps_idempotent Sample.ImportDeps [P] [P; Q] Sample_deep).
  reflexivity.
Defined.

(** C5 fails as stated: a pattern with a separator reaches into the
    directories of the directory. *)
Lemma match_reaches_subdirectory :
  ¬ Matcher.onlyDirectEntries disk "/src/p" "*/*.css".
Proof.
  intros H.
  assert (match_ disk "/src/p" "*/*.css" = Ok ["/src/p/sub/b.css"]) as Hms
    by (vm_compute; reflexivity).
  destruct (H _ "/src/p/sub/b.css" Hms) as (n & (names & Hnames & Hn) & Hm & _).
  { by left. }
  injection Hnames as <-.
  repeat (apply elem_of_cons in Hn as [->|Hn]; [by vm_compute in Hm|]).
  by inversion Hn.
Qed.

Lemma match_single_level_witness :
  Clean "/src/p" = "/src/p" ∧ hasMeta "/src/p" = false
  ∧ Matcher.singleElement "*.css" = true
  ∧ match_ disk "/src/p" "*.css" = Ok ["/src/p/.hidden.css"; "/src/p/a.css"]
  ∧ Matcher.directEntry disk "/src/p" "*.css" "/src/p/a.css".
Proof.
  assert (match_ disk "/src/p" "*.css"
          = Ok ["/src/p/.hidden.css"; "/src/p/a.css"]) as Hms
    by (vm_compute; reflexivity).
  repeat (split; [reflexivity || exact Hms|]).
  apply (match_single_level disk "/src/p" "*.css" eq_refl eq_refl eq_refl)
    with (ms := ["/src/p/.hidden.css"; "/src/p/a.css"]).
  - vm_compute. discriminate.
  - exact Hms.
  - apply elem_of_cons. right. apply elem_of_cons. by left.
Defined.

Lemma gone_missing : Matcher.missing disk "/src/gone".
Proof.
  split; [reflexivity|]. split; [reflexivity|].
  intros n Hn. rewrite Join_single by done. reflexivity.
Qed.

Lemma wellFormed_computed (p : string) (b : bool) :
  Match p "" = Ok b → Matcher.wellFormed p.
Proof. intros H. apply wellFormed_Match_empty. intros e. by rewrite H. Qed.

(** C6 fails as stated: a well-formed pattern with a [..] element leaves
    the directory that does not exist, and finds files. *)
Lemma match_leaves_missing_directory :
  ¬ Matcher.missingIsEmpty disk "/src/gone" "../p/*.css".
Proof.
  intros H.
  assert (match_ disk "/src/gone" "../p/*.css"
          = Ok ["/src/p/.hidden.css"; "/src/p/a.css"]) as Hms
    by (vm_compute; reflexivity).
  rewrite H in Hms; [done| |exact gone_missing].
  eapply wellFormed_computed. reflexivity.
Qed.

Lemma match_missing_directory_witness :
  Clean "/src/gone" = "/src/gone" ∧ hasMeta "/src/gone" = false
  ∧ Matcher.singleElement "*.css" = true
  ∧ Matcher.wellFormed "*.css" ∧ Matcher.missing disk "/src/gone"
  ∧ match_ disk "/src/gone" "*.css" = Ok [].
Proof.
  repeat (split; [reflexivity|]).
  split; [eapply wellFormed_computed; reflexivity|].
  split; [exact gone_missing|].
  apply (match_missing_directory disk "/src/gone" "*.css"
           eq_refl eq_refl eq_refl).
  - eapply wellFormed_computed. reflexivity.
  - exact gone_missing.
Defined.

(** Why the directory must be free of magic characters, and the pattern a
    single element: [match] globs the directory and the pattern as one
    pattern, after [Join] has cleaned them. *)

Example match_directory_is_pattern :
  match_ disk "/src/*" "a.css" = Ok ["/src/p/a.css"; "/src/q/a.css"].
Proof. vm_compute. reflexivity. Qed.

Example match_directory_malformed :
  match_ disk "/src/[" "*" = Err ErrBadPattern.
Proof. vm_compute. reflexivity. Qed.

Example match_parent : match_ disk "/src/p" ".." = Ok ["/src"].
Proof. vm_compute. reflexivity. Qed.

Example match_empty_pattern : match_ disk "/src/p" "" = Ok ["/src/p"].
Proof. vm_compute. reflexivity. Qed.

Example match_malformed_pattern :
  match_ disk "/src/p" "[" = Err ErrBadPattern.
Proof. vm_compute. reflexivity. Qed.

(** The scenarios of the specification: the files [*.css] of [p] and of
    its dependency [q]. *)

Example main_lists_closure :
  main Sample.Import Sample.ImportDeps Sample.Rel disk here defaults ["*.css"]
  = (records nl ["/src/p/a.css"; "/src/q/a.css"; "/src/q/b.css"], None).
Proof. vm_compute. reflexivity. Qed.

Example main_fails_on_duplicate :
  main Sample.Import Sample.ImportDeps Sample.Rel disk here failOnDup ["*.css"]
  = (records nl ["/src/p/a.css"],
     Some (ErrorString
       ("duplicate file a.css found at" +:+ nl +:+ tab +:+ "/src/q/a.css"
        +:+ nl +:+ "previously" +:+ nl +:+ tab +:+ "/src/p/a.css"))).
Proof. vm_compute. reflexivity. Qed.

Example main_without_dependencies :
  main Sample.Import Sample.ImportDeps Sample.Rel disk here noDependencies
    ["*.css"]
  = (records nl ["/src/p/a.css"], None).
Proof. vm_compute. reflexivity. Qed.

Example main_default_pattern :
  main Sample.Import Sample.ImportDeps Sample.Rel disk here noDependencies []
  = (records nl ["/src/p/a.css"; "/src/p/sub"], None).
Proof. vm_compute. reflexivity. Qed.

(** * The functions of gather.go, further *)

(** ** Basenames *)

Lemma cutLastSep_file (s : string) :
  containsByte Separator (snd (cutLastSep s)) = false.
Proof.
  induction s as [|c s IH]; [done|]. cbn [cutLastSep].
  destruct (cutLastSep s) as [dir file]. simpl in IH.
  destruct dir; [|done].
  destruct (IsPathSeparator c) eqn:Hc; [done|]. simpl.
  unfold IsPathSeparator in Hc. by rewrite Hc.
Qed.

Lemma Base_nonempty (p : string) : Base p ≠ "".
Proof.
  unfold Base. destruct (isEmpty p); [done|]. cbv zeta.
  by destruct (snd (cutLastSep (stripTrailingSeps p))).
Qed.

Lemma Base_element (p : string) :
  Base p = String Separator "" ∨ containsByte Separator (Base p) = false.
Proof.
  unfold Base. destruct (isEmpty p); [by right|]. cbv zeta.
  destruct (snd (cutLastSep (stripTrailingSeps p))) eqn:H; [by left|].
  right. simpl isEmpty. cbv iota. rewrite <- H. apply cutLastSep_file.
Qed.

Lemma containsByte_skip (c : ascii) (n : nat) (s : string) :
  containsByte c s = false → containsByte c (skip n s) = false.
Proof.
  revert s. induction n as [|n IH]; intros [|a s]; try done.
  simpl. intros [_ H]%orb_false_elim. by apply IH.
Qed.

Lemma Match_dotfile_Base (p : string) :
  Match ".*" (Base p) = Ok (startsWith "." (Base p)).
Proof.
  rewrite Match_dotfile. destruct (Base_element p) as [->|H]; [done|].
  by rewrite (containsByte_skip _ 1 _ H), andb_true_r.
Qed.

Lemma Match_nil (name : string) : Match "" name = Ok (isEmpty name).
Proof. reflexivity. Qed.

(** ** A malformed pattern fails on every name *)




Lemma wellFormed_dec (p : string) :
  Matcher.wellFormed p ∨ ¬ Matcher.wellFormed p.
Proof.
  destruct (Match p "") as [b|e] eqn:Hp.
  - left. apply wellFormed_Match_empty. intros e. by rewrite Hp.
  - right. intros Hwf. by apply (Hwf "" e).
Qed.

(** ** [filter] *)

Lemma filterLoop_Ok (g : string) (paths out r : list string) :
  filterLoop g paths out = Ok r ↔
  Forall (fun p => ∃ b, Match g (Base p) = Ok b) paths
  ∧ r = out ++ List.filter (fun p => negb (skips g p)) paths.
Proof.
  revert out. induction paths as [|p paths IH]; intros out; simpl.
  - rewrite app_nil_r. split; [by intros [= <-]|by intros [_ ->]].
  - unfold skips at 1. rewrite Forall_cons.
    destruct (Match g (Base p)) as [skip|e]; simpl.
    + rewrite IH. destruct skip; simpl.
      * split; [intros [? ->]; eauto|tauto].
      * rewrite <- app_assoc. split; [intros [? ->]; eauto|tauto].
    + split; [done|]. by intros [[[b ?] _] _].
Qed.


Lemma filter_all {A} (f : A → bool) (l : list A) :
  Forall (fun x => f x = true) l → List.filter f l = l.
Proof. induction 1 as [|x l Hx _ IH]; simpl; [done|]. by rewrite Hx, IH. Qed.

Lemma skips_nil (p : string) : skips "" p = false.
Proof.
  unfold skips. rewrite Match_nil.
  pose proof (Base_nonempty p). by destruct (Base p).
Qed.

Lemma skips_dotfile (p : string) : skips ".*" p = startsWith "." (Base p).
Proof. unfold skips. by rewrite Match_dotfile_Base. Qed.

Lemma filter_wellFormed (paths : list string) (g : string) :
  Matcher.wellFormed g →
  filter paths g = Ok (List.filter (fun p => negb (skips g p)) paths).
Proof.
  intros Hwf. unfold filter. destruct (isEmpty g) eqn:Hg.
  - destruct g; [|done]. rewrite filter_all; [done|].
    apply Forall_forall. intros p _. by rewrite skips_nil.
  - apply filterLoop_Ok. split; [|done]. apply Forall_forall. intros p _.
    destruct (Match g (Base p)) as [b|e] eqn:Hp; [by exists b|].
    by destruct (Hwf _ _ Hp).
Qed.

Lemma wellFormed_dotfile : Matcher.wellFormed ".*".
Proof. intros name e. by rewrite Match_dotfile. Qed.

Lemma filter_Ok (paths : list string) (g : string) (out : list string) :
  filter paths g = Ok out →
  out = List.filter (fun p => negb (skips g p)) paths.
Proof.
  unfold filter. destruct (isEmpty g) eqn:Hg.
  - destruct g; [|done]. intros [= <-]. rewrite filter_all; [done|].
    apply Forall_forall. intros p _. by rewrite skips_nil.
  - by intros [_ ->]%filterLoop_Ok.
Qed.

Lemma filter_filter {A} (f g : A → bool) (l : list A) :
  List.filter f (List.filter g l) = List.filter g (List.filter f l).
Proof.
  induction l as [|x l IH]; simpl; [done|].
  destruct (f x) eqn:Hf, (g x) eqn:Hg; simpl; rewrite ?Hf, ?Hg, IH; done.
Qed.

Lemma filterLoop_app (g : string) (xs ys out : list string) :
  filterLoop g (xs ++ ys) out = (r ← filterLoop g xs out; filterLoop g ys r).
Proof.
  revert out. induction xs as [|p xs IH]; intros out; simpl; [done|].
  destruct (Match g (Base p)) as [skip|e]; [|done]. simpl. apply IH.
Qed.

Lemma filterLoop_out (g : string) (paths out : list string) :
  filterLoop g paths out = (kept ← filterLoop g paths []; Ok (out ++ kept)).
Proof.
  revert out. induction paths as [|p paths IH]; intros out; simpl.
  - by rewrite app_nil_r.
  - destruct (Match g (Base p)) as [[]|e]; simpl; [apply IH| |done].
    rewrite (IH (out ++ [p])), (IH [p]).
    destruct (filterLoop g paths []) as [kept|e]; [|done]. simpl.
    by rewrite <- app_assoc.
Qed.

Lemma filter_In_Forall {A} (f : A → bool) (P : A → Prop) (l : list A) :
  Forall P l → Forall (fun x => P x ∧ f x = true) (List.filter f l).
Proof.
  induction 1 as [|x l Hx _ IH]; simpl; [done|].
  destruct (f x) eqn:Hf; [|done]. by constructor.
Qed.

(** X4.  What [filter] returns: it returns a list exactly when the glob is
    empty or [Match] answers for the basename of every path, and the list
    is then the paths whose basename the glob does not match, in their
    order and with their repetitions. *)
Theorem filter_keeps (paths : list string) (g : string) (out : list string) :
  filter paths g = Ok out ↔
  (g = "" ∨ Forall (fun p => ∃ b, Match g (Base p) = Ok b) paths)
  ∧ out = List.filter (fun p => negb (skips g p)) paths.
Proof.
  split.
  - intros H. split; [|by apply filter_Ok].
    unfold filter in H. destruct g; [by left|]. right.
    by apply filterLoop_Ok in H as [? _].
  - intros [Hg ->]. unfold filter. destruct (isEmpty g) eqn:He.
    + destruct g; [|done]. rewrite filter_all; [done|].
      apply Forall_forall. intros p _. by rewrite skips_nil.
    + apply filterLoop_Ok. by destruct Hg as [->|?].
Qed.


(** X6.  [filter] goes through its input from left to right: filtering a
    concatenation is filtering the parts, and it fails with the error of
    the first part that fails. *)
Theorem filter_append (xs ys : list string) (g : string) :
  filter (xs ++ ys) g
  = (a ← filter xs g; b ← filter ys g; Ok (a ++ b)).
Proof.
  unfold filter. destruct (isEmpty g); [done|].
  rewrite filterLoop_app.
  destruct (filterLoop g xs []) as [a|e]; [|done]. simpl.
  apply filterLoop_out.
Qed.

(** X7.  [filter] is idempotent: filtering what it returned, with the same
    glob, returns it again. *)
Theorem filter_idempotent (paths : list string) (g : string)
  (out : list string) :
  filter paths g = Ok out → filter out g = Ok out.
Proof.
  unfold filter. destruct (isEmpty g); [done|].
  intros [Hall ->]%filterLoop_Ok. apply filterLoop_Ok.
  pose proof (filter_In_Forall (fun p => negb (skips g p)) _ _ Hall) as Hout.
  split.
  - eapply Forall_impl; [exact Hout|]. by intros p [? _].
  - simpl. symmetry. apply filter_all.
    eapply Forall_impl; [exact Hout|]. by intros p [_ ?].
Qed.

Lemma filter_idempotent_witness :
  filter ["/p/a.css"; "/p/b.go"; "/q/a.css"] "*.css" = Ok ["/p/b.go"]
  ∧ filter ["/p/b.go"] "*.css" = Ok ["/p/b.go"].
Proof.
  split; [reflexivity|].
  apply (filter_idempotent ["/p/a.css"; "/p/b.go"; "/q/a.css"]).
  reflexivity.
Defined.

(** X13.  The dot-file stage of [main], [filter(ms, ".*")], cannot fail,
    and keeps exactly the paths whose basename does not begin with a
    dot. *)
Theorem filter_dotfiles (ms : list string) :
  filter ms ".*"
  = Ok (List.filter (fun m => negb (startsWith "." (Base m))) ms).
Proof.
  rewrite (filter_wellFormed _ _ wellFormed_dotfile). f_equal.
  apply List.filter_ext. intros m. by rewrite skips_dotfile.
Qed.

(** X14.  For a well-formed exclusion glob the two exclusion stages of
    [main] commute: dot files first and then the exclusions, as [main]
    does, gives what the exclusions first and then the dot files would. *)
Theorem exclusions_commute (exclude : string) (ms : list string) :
  Matcher.wellFormed exclude →
  exclusions false exclude ms = (kept ← filter ms exclude; filter kept ".*").
Proof.
  intros Hwf. unfold exclusions. simpl negb. cbv iota.
  rewrite (filter_wellFormed ms _ wellFormed_dotfile),
    (filter_wellFormed ms _ Hwf). simpl.
  rewrite (filter_wellFormed _ _ wellFormed_dotfile),
    (filter_wellFormed _ _ Hwf).
  f_equal. apply filter_filter.
Qed.

Lemma exclusions_commute_witness :
  Matcher.wellFormed "b*"
  ∧ exclusions false "b*" ["/p/a.css"; "/p/.b"; "/p/b.css"] = Ok ["/p/a.css"]
  ∧ (kept ← filter ["/p/a.css"; "/p/.b"; "/p/b.css"] "b*"; filter kept ".*")
    = Ok ["/p/a.css"].
Proof.
  assert (Matcher.wellFormed "b*") as Hwf
    by (eapply wellFormed_computed; reflexivity).
  split; [exact Hwf|]. split; [reflexivity|].
  rewrite <- (exclusions_commute "b*" _ Hwf). reflexivity.
Defined.

Lemma filter_andb {A} (f g : A → bool) (l : list A) :
  List.filter g (List.filter f l) = List.filter (fun x => f x && g x) l.
Proof.
  induction l as [|x l IH]; simpl; [done|].
  destruct (f x) eqn:Hf; simpl; [|done]. by rewrite IH.
Qed.

(** X23.  What the two exclusion stages of [main] hand on, when they do:
    the matched paths whose basename the exclusion glob does not match
    and, unless dot files are asked for, does not begin with a dot, in
    their order. *)
Theorem exclusions_keep (dot : bool) (exclude : string)
  (ms out : list string) :
  exclusions dot exclude ms = Ok out →
  out = List.filter
          (fun m => (dot || negb (startsWith "." (Base m)))
                    && negb (skips exclude m)) ms.
Proof.
  unfold exclusions. destruct dot; simpl.
  - apply filter_Ok.
  - rewrite (filter_wellFormed _ _ wellFormed_dotfile). simpl.
    intros ->%filter_Ok. rewrite filter_andb.
    apply List.filter_ext. intros m. by rewrite skips_dotfile.
Qed.

Lemma exclusions_keep_witness :
  exclusions false "doc*.go"
    ["/p/a.go"; "/p/.a.go"; "/p/doc.go"; "/p/doc_test.go"; "/p/b.go"]
  = Ok ["/p/a.go"; "/p/b.go"]
  ∧ ["/p/a.go"; "/p/b.go"]
    = List.filter
        (fun m => (false || negb (startsWith "." (Base m)))
                  && negb (skips "doc*.go" m))
        ["/p/a.go"; "/p/.a.go"; "/p/doc.go"; "/p/doc_test.go"; "/p/b.go"].
Proof.
  split; [reflexivity|].
  apply (exclusions_keep false "doc*.go"). reflexivity.
Defined.

(** ** [format] and [mkFormatter] *)

Lemma formatLoop_Ok (f : pathFormatter) (paths out r : list string) :
  formatLoop f paths out = Ok r ↔
  ∃ ss, Forall2 (fun p s => f p = Ok s) paths ss ∧ r = out ++ ss.
Proof.
  revert out. induction paths as [|p paths IH]; intros out; simpl.
  - split.
    + intros [= <-]. exists []. by rewrite app_nil_r.
    + intros (ss & Hss & ->). inversion Hss. by rewrite app_nil_r.
  - destruct (f p) as [s|e] eqn:Hp; simpl.
    + rewrite IH. split.
      * intros (ss & Hss & ->). exists (s :: ss). rewrite <- app_assoc.
        split; [by constructor|done].
      * intros (ss & Hss & ->). inversion Hss as [|? s' ? ss' Hs Hss']; subst.
        exists ss'. rewrite <- app_assoc. split; [done|]. simpl. congruence.
    + split; [done|]. intros (ss & Hss & _). inversion Hss; congruence.
Qed.

Lemma formatLoop_Err (f : pathFormatter) (paths out : list string)
  (e : error) :
  formatLoop f paths out = Err e ↔
  ∃ pre p post, paths = pre ++ p :: post
    ∧ Forall (fun q => ∃ s, f q = Ok s) pre ∧ f p = Err e.
Proof.
  revert out. induction paths as [|p paths IH]; intros out; simpl.
  - split; [done|]. intros (pre & q & post & H & _). by destruct pre.
  - destruct (f p) as [s|e'] eqn:Hp; simpl.
    + rewrite IH. split.
      * intros (pre & q & post & -> & Hpre & Hq).
        exists (p :: pre), q, post. split; [done|]. split; [|done].
        constructor; [by exists s|done].
      * intros (pre & q & post & Heq & Hpre & Hq).
        destruct pre as [|p' pre]; simpl in Heq; injection Heq as <- ->.
        { congruence. }
        exists pre, q, post. split; [done|]. split; [|done].
        by inversion Hpre.
    + split.
      * intros [= <-]. by exists [], p, paths.
      * intros (pre & q & post & Heq & Hpre & Hq).
        destruct pre as [|p' pre]; simpl in Heq; injection Heq as <- ->.
        { congruence. }
        inversion Hpre as [|? ? [s Hs] _]; subst. congruence.
Qed.

(** X8.  With the identity formatter, the one [mkFormatter] makes when no
    base is given, [format] returns the paths it was given. *)
Theorem format_identity (paths : list string) :
  format paths identity = Ok paths.
Proof.
  apply formatLoop_Ok. exists paths. split; [|done].
  induction paths; by constructor.
Qed.

(** X9.  [format] succeeds exactly when the formatter succeeds on every
    path, and returns the formatted paths, one for one and in order. *)
Theorem format_each (paths : list string) (f : pathFormatter)
  (out : list string) :
  format paths f = Ok out ↔ Forall2 (fun p s => f p = Ok s) paths out.
Proof.
  unfold format. rewrite formatLoop_Ok. split.
  - by intros (ss & Hss & ->).
  - intros H. by exists out.
Qed.

(** X10.  [format] fails exactly when the formatter fails on some path, and
    with the error of the first path it fails on: no formatted path is
    returned, whatever was formatted before. *)
Theorem format_first_error (paths : list string) (f : pathFormatter)
  (e : error) :
  format paths f = Err e ↔
  ∃ pre p post, paths = pre ++ p :: post
    ∧ Forall (fun q => ∃ s, f q = Ok s) pre ∧ f p = Err e.
Proof. apply formatLoop_Err. Qed.

Section base.

Variable Rel : string → string → result string.

(** X11.  [mkFormatter] fails exactly when a base is given that cleans to
    ["."] and the working directory cannot be had, with the error of
    [os.Getwd]; and it asks for the working directory only for such a
    base: for the empty base and for every other base the world is as it
    was, and a formatter is returned. *)
Theorem mkFormatter_fails (rel : string) (w : world) :
  (∀ e w',
     mkFormatter Rel rel w = (Err e, w') ↔
     rel ≠ "" ∧ Clean rel = "." ∧ wd w = Err e
     ∧ w' = World (wd w) (S (getwds w)))
  ∧ (rel = "" ∨ Clean rel ≠ "." →
     ∃ f, mkFormatter Rel rel w = (Ok f, w)).
Proof.
  unfold mkFormatter, Getwd. split.
  - intros e w'. destruct rel as [|c rel]; simpl isEmpty; cbv iota.
    { split; [done|]. by intros [? _]. }
    destruct (String.eqb_spec (Clean (String c rel)) ".") as [Hc|Hc].
    + destruct (wd w) as [dir|e'].
      * split; [done|]. by intros (_ & _ & ? & _).
      * split; [by intros [= <- <-]|]. by intros (_ & _ & [= <-] & ->).
    + split; [done|]. by intros (_ & ? & _).
  - intros Hrel. destruct rel as [|c rel]; simpl isEmpty; cbv iota; [eauto|].
    destruct Hrel as [|Hc]; [done|].
    destruct (String.eqb_spec (Clean (String c rel)) "."); [done|eauto].
Qed.

End base.

Lemma mkFormatter_fails_witness :
  Clean "/src" ≠ "."
  ∧ ∃ f, mkFormatter Sample.Rel "/src" (World (Err (ErrorString "getwd")) 0)
         = (Ok f, World (Err (ErrorString "getwd")) 0).
Proof.
  assert (Clean "/src" ≠ ".") as H by (vm_compute; discriminate).
  split; [exact H|].
  apply (proj2 (mkFormatter_fails Sample.Rel "/src"
                  (World (Err (ErrorString "getwd")) 0))).
  by right.
Defined.

(** ** The registry and the output *)

(** X12.  A path whose basename is not registered is registered by [push]
    under its basename, and only there; pushing the same path again then
    fails: a path is a duplicate of itself. *)
Theorem push_registers (d : dupcheck) (p : string) :
  d !! Base p = None →
  ∃ d', push d p = (d', None)
    ∧ d' !! Base p = Some p
    ∧ (∀ k, k ≠ Base p → d' !! k = d !! k)
    ∧ ∃ e, push d' p = (d', Some e).
Proof.
  intros H. exists (<[Base p := p]> d). split; [by apply push_fresh|].
  split; [apply lookup_insert_eq|].
  split; [intros k Hk; by apply lookup_insert_ne|].
  destruct (push_taken (<[Base p := p]> d) p p) as (msg & Hpush & _).
  { apply lookup_insert_eq. }
  by exists (ErrorString msg).
Qed.

Lemma push_registers_witness :
  (∅ : dupcheck) !! Base "/p/a.css" = None
  ∧ ∃ d', push ∅ "/p/a.css" = (d', None)
         ∧ d' !! "a.css" = Some "/p/a.css".
Proof.
  split; [reflexivity|].
  destruct (push_registers ∅ "/p/a.css") as (d' & H1 & H2 & _).
  { reflexivity. }
  exists d'. split; [exact H1|exact H2].
Defined.

Lemma records_app (sep : string) (xs ys : list string) :
  records sep (xs ++ ys) = records sep xs +:+ records sep ys.
Proof.
  induction xs as [|x xs IH]; simpl; [done|].
  by rewrite IH, !append_assoc.
Qed.

Lemma emit_app (fd : bool) (sep : string) (xs ys : list string) (st : proc) :
  emit fd sep (xs ++ ys) st
  = match emit fd sep xs st with
    | (st', None) => emit fd sep ys st'
    | (st', Some err) => (st', Some err)
    end.
Proof.
  revert st. induction xs as [|x xs IH]; intros st; simpl; [done|].
  destruct fd; [|apply IH].
  destruct (push (dups st) x) as [d [err|]]; [done|apply IH].
Qed.

Lemma wrote_nil (sep : string) (st : proc) : wrote sep [] st st.
Proof.
  split; [simpl; by rewrite append_nil_r|]. split; [constructor|].
  split; [intros m Hm; by inversion Hm|done].
Qed.

Lemma wrote_app (sep : string) (xs ys : list string) (st st1 st2 : proc) :
  wrote sep xs st st1 → wrote sep ys st1 st2 → wrote sep (xs ++ ys) st st2.
Proof.
  intros (Hout1 & Hnd1 & Hreg1 & Hkeep1) (Hout2 & Hnd2 & Hreg2 & Hkeep2).
  assert (∀ y, y ∈ ys → Base y ∉ Base <$> xs) as Hdisj.
  { intros y Hy (x & Hb & Hx)%list_elem_of_fmap.
    destruct (Hreg2 y Hy) as [Hnone _]. destruct (Hreg1 x Hx) as [_ Hsome].
    congruence. }
  split; [by rewrite Hout2, Hout1, records_app, append_assoc|].
  split.
  { rewrite fmap_app. apply NoDup_app. split; [done|]. split; [|done].
    intros b Hb (y & -> & Hy)%list_elem_of_fmap. by apply (Hdisj y). }
  split.
  - intros m [Hm|Hm]%elem_of_app.
    + destruct (Hreg1 m Hm) as [Hnone Hsome]. split; [done|].
      rewrite Hkeep2; [done|].
      intros (y & Hb & Hy)%list_elem_of_fmap.
      destruct (Hreg2 y Hy) as [Hnone2 _]. congruence.
    + destruct (Hreg2 m Hm) as [Hnone Hsome]. split; [|done].
      rewrite <- Hkeep1; [done|]. by apply Hdisj.
  - intros k Hk. rewrite fmap_app, elem_of_app in Hk.
    rewrite Hkeep2, Hkeep1; tauto.
Qed.

Lemma wrote_one (sep : string) (m : string) (d : dupcheck) (out : string) :
  d !! Base m = None →
  wrote sep [m] (Proc d out) (Proc (<[Base m := m]> d) (out +:+ m +:+ sep)).
Proof.
  intros H. split; [simpl; by rewrite append_nil_r|].
  split; [apply NoDup_singleton|]. split.
  - intros m' ->%list_elem_of_singleton. simpl.
    split; [done|apply lookup_insert_eq].
  - intros k Hk. simpl. apply lookup_insert_ne. intros <-. apply Hk.
    by apply list_elem_of_singleton.
Qed.

(** What the checking loop has done when it stops. *)
Lemma emit_checked (sep : string) (ms : list string) :
  ∀ (st st' : proc) (err : option error),
    emit true sep ms st = (st', err) →
    ∃ pre post, ms = pre ++ post
      ∧ emit true sep pre st = (st', None)
      ∧ wrote sep pre st st'
      ∧ match err with
        | None => post = []
        | Some e =>
            ∃ m post', post = m :: post'
              ∧ push (dups st') m = (dups st', Some e)
        end.
Proof.
  induction ms as [|m ms IH]; intros [d out] st' err; simpl.
  - intros [= <- <-]. exists [], []. split; [done|]. split; [done|].
    split; [apply wrote_nil|done].
  - destruct (push d m) as [d1 [e|]] eqn:Hpush.
    + intros [= <- <-]. exists [], (m :: ms). split; [done|].
      unfold push in Hpush. destruct (d !! Base m) eqn:Hd; [|done].
      injection Hpush as <- <-. split; [done|].
      split; [apply wrote_nil|]. exists m, ms. split; [done|].
      simpl. unfold push. by rewrite Hd.
    + unfold push in Hpush. destruct (d !! Base m) eqn:Hd; [done|].
      injection Hpush as <-. intros Hemit.
      destruct (IH _ _ _ Hemit) as (pre & post & -> & Hpre & Hwrote & Herr).
      exists (m :: pre), post. split; [done|]. split.
      { simpl. unfold push. by rewrite Hd. }
      split; [|done].
      apply (wrote_app sep [m] pre _ _ _ (wrote_one sep m d out Hd) Hwrote).
Qed.

(** X15.  With duplicate detection, the printing loop of [main] runs to
    its end exactly when the basenames of the paths differ from one another
    and none of them is registered already. *)
Theorem emit_checked_completes (sep : string) (ms : list string)
  (st : proc) :
  snd (emit true sep ms st) = None ↔
  NoDup (Base <$> ms) ∧ ∀ m, m ∈ ms → dups st !! Base m = None.
Proof.
  destruct (emit true sep ms st) as [st' err] eqn:Hemit. simpl.
  destruct (emit_checked _ _ _ _ _ Hemit)
    as (pre & post & -> & _ & (_ & Hnd & Hreg & Hkeep) & Herr).
  split.
  - intros ->. subst post. rewrite app_nil_r. split; [done|].
    intros m Hm. by destruct (Hreg m Hm).
  - intros [Hall Hfresh]. destruct err as [e|]; [|done].
    destruct Herr as (m & post' & -> & Hpush).
    unfold push in Hpush. destruct (dups st' !! Base m) eqn:Hm; [|done].
    rewrite Hkeep, Hfresh in Hm; [done| |].
    + apply elem_of_app. right. by left.
    + rewrite fmap_app in Hall. apply NoDup_app in Hall as (_ & Hdisj & _).
      intros Hin. apply (Hdisj _ Hin). by left.
Qed.

(** X16.  With duplicate detection, when the printing loop of [main]
    stops on an error, it stops at the first path whose basename is taken:
    the paths before it are written and registered, as by a loop that ends
    well, the path itself is not written, and the message names it and the
    holder of its basename, which is a path written before it or the path
    the registry held from the start. *)
Theorem emit_stops_at_duplicate (sep : string) (ms : list string)
  (st st' : proc) (e : error) :
  emit true sep ms st = (st', Some e) →
  ∃ pre m post o msg,
    ms = pre ++ m :: post
    ∧ emit true sep pre st = (st', None)
    ∧ stdout st' = stdout st +:+ records sep pre
    ∧ ((o ∈ pre ∧ Base o = Base m) ∨ dups st !! Base m = Some o)
    ∧ e = ErrorString msg ∧ contains msg m ∧ contains msg o.
Proof.
  intros Hemit.
  destruct (emit_checked _ _ _ _ _ Hemit)
    as (pre & post & -> & Hpre & (Hout & _ & Hreg & Hkeep) & Herr).
  destruct Herr as (m & post' & -> & Hpush).
  assert (∃ o, dups st' !! Base m = Some o) as [o Ho].
  { unfold push in Hpush. destruct (dups st' !! Base m); [eauto|done]. }
  destruct (push_taken _ _ _ Ho) as (msg & Hpush' & _ & Hm & Hold).
  exists pre, m, post', o, msg. repeat split; try done.
  - destruct (decide (Base m ∈ Base <$> pre)) as [Hin|Hout'].
    + apply list_elem_of_fmap in Hin as (x & Hb & Hx).
      destruct (Hreg x Hx) as [_ Hsome]. left.
      assert (o = x) as -> by congruence. done.
    + right. by rewrite <- Hkeep.
  - congruence.
Qed.

Lemma emit_stops_at_duplicate_witness :
  ∃ pre m post,
    ["/p/a.css"; "/p/b.css"; "/q/a.css"; "/q/c.css"] = pre ++ m :: post
    ∧ emit true nl pre (Proc ∅ "")
      = (Proc {["a.css" := "/p/a.css"; "b.css" := "/p/b.css"]}
           (records nl ["/p/a.css"; "/p/b.css"]), None).
Proof.
  destruct (emit_stops_at_duplicate nl
              ["/p/a.css"; "/p/b.css"; "/q/a.css"; "/q/c.css"] (Proc ∅ "")
              (Proc {["a.css" := "/p/a.css"; "b.css" := "/p/b.css"]}
                 (records nl ["/p/a.css"; "/p/b.css"]))
              (ErrorString
                 ("duplicate file a.css found at" +:+ nl +:+ tab
                  +:+ "/q/a.css" +:+ nl +:+ "previously" +:+ nl +:+ tab
                  +:+ "/p/a.css")))
    as (pre & m & post & o & msg & H1 & H2 & _).
  { vm_compute. reflexivity. }
  exists pre, m, post. split; [exact H1|exact H2].
Defined.

(** ** The loop over the packages *)

Section loop.

Variable fs : FS.
Variable fl : flags.
Variable pat : string.
Variable formatter : pathFormatter.

Lemma scan_cons (p : Package) (ps : Packages) (st : proc) :
  gather.scan fs fl pat formatter (p :: ps) st
  = match gathered fs fl pat formatter p with
    | Err err => (st, Some err)
    | Ok ms =>
        match emit (faildup fl) (separator (print0 fl)) ms st with
        | (st, Some err) => (st, Some err)
        | (st, None) => gather.scan fs fl pat formatter ps st
        end
    end.
Proof. reflexivity. Qed.

Lemma scan_gathered (pre post : Packages) (mss : list (list string))
  (st : proc) :
  Forall2 (fun p ms => gathered fs fl pat formatter p = Ok ms) pre mss →
  gather.scan fs fl pat formatter (pre ++ post) st
  = match emit (faildup fl) (separator (print0 fl)) (concat mss) st with
    | (st', None) => gather.scan fs fl pat formatter post st'
    | (st', Some err) => (st', Some err)
    end.
Proof.
  intros H. revert st.
  induction H as [|p ms pre mss Hp _ IH]; intros st; [done|].
  rewrite <- app_comm_cons, scan_cons, Hp. simpl concat. rewrite emit_app.
  destruct (emit (faildup fl) (separator (print0 fl)) ms st) as [st1 [e|]];
    [done|apply IH].
Qed.

(** X17.  The loop of [main] over the packages goes through them from
    left to right and carries only the registry and the output from one to
    the next: running it on a concatenation is running it on the first
    part and, unless that died, on the second part from the state
    reached. *)
Theorem scan_app (ps1 ps2 : Packages) (st : proc) :
  gather.scan fs fl pat formatter (ps1 ++ ps2) st
  = match gather.scan fs fl pat formatter ps1 st with
    | (st', None) => gather.scan fs fl pat formatter ps2 st'
    | (st', Some err) => (st', Some err)
    end.
Proof.
  revert st. induction ps1 as [|p ps1 IH]; intros st; [done|].
  rewrite <- app_comm_cons, !scan_cons.
  destruct (gathered fs fl pat formatter p) as [ms|e]; [|done].
  destruct (emit (faildup fl) (separator (print0 fl)) ms st) as [st1 [e|]];
    [done|apply IH].
Qed.

(** X18.  When matching, filtering and formatting succeed for every
    package, the loop of [main] over the packages is the printing loop
    over the files of the first package, then those of the second, and so
    on: without duplicate detection all of them are written, in that
    order. *)
Theorem scan_prints_in_order (ps : Packages) (mss : list (list string))
  (st : proc) :
  Forall2 (fun p ms => gathered fs fl pat formatter p = Ok ms) ps mss →
  gather.scan fs fl pat formatter ps st
  = emit (faildup fl) (separator (print0 fl)) (concat mss) st
  ∧ (faildup fl = false →
     gather.scan fs fl pat formatter ps st
     = (Proc (dups st)
          (stdout st +:+ records (separator (print0 fl)) (concat mss)),
        None)).
Proof.
  intros H. pose proof (scan_gathered ps [] mss st H) as Hscan.
  rewrite app_nil_r in Hscan.
  assert (gather.scan fs fl pat formatter ps st
          = emit (faildup fl) (separator (print0 fl)) (concat mss) st) as Heq.
  { rewrite Hscan.
    by destruct (emit (faildup fl) (separator (print0 fl)) (concat mss) st)
      as [st' [e|]]. }
  split; [done|]. intros Hfd. rewrite Heq, Hfd. apply emit_unchecked.
Qed.

(** X19.  When matching, filtering or formatting fails for a package,
    [main] dies of that error after it has written the files of the
    packages before it, and nothing of that package or of those after
    it. *)
Theorem scan_dies_after_output (pre : Packages) (p : Package)
  (post : Packages) (mss : list (list string)) (e : error) (st : proc) :
  Forall2 (fun p ms => gathered fs fl pat formatter p = Ok ms) pre mss →
  gathered fs fl pat formatter p = Err e →
  gather.scan fs fl pat formatter (pre ++ p :: post) st
  = match emit (faildup fl) (separator (print0 fl)) (concat mss) st with
    | (st', None) => (st', Some e)
    | (st', Some err) => (st', Some err)
    end
  ∧ (faildup fl = false →
     gather.scan fs fl pat formatter (pre ++ p :: post) st
     = (Proc (dups st)
          (stdout st +:+ records (separator (print0 fl)) (concat mss)),
        Some e)).
Proof.
  intros H Hp. rewrite (scan_gathered pre (p :: post) mss st H).
  assert (∀ st', gather.scan fs fl pat formatter (p :: post) st'
                 = (st', Some e)) as Hdie.
  { intros st'. by rewrite scan_cons, Hp. }
  split.
  - destruct (emit (faildup fl) (separator (print0 fl)) (concat mss) st)
      as [st' [err|]]; [done|apply Hdie].
  - intros Hfd. rewrite Hfd, emit_unchecked. apply Hdie.
Qed.


End loop.

Lemma scan_prints_in_order_witness :
  Forall2 (fun p ms => gathered disk defaults "*.css" identity p = Ok ms)
    [P; Q] [["/src/p/a.css"]; ["/src/q/a.css"; "/src/q/b.css"]]
  ∧ gather.scan disk defaults "*.css" identity [P; Q] (Proc ∅ "")
    = (Proc ∅ (records nl ["/src/p/a.css"; "/src/q/a.css"; "/src/q/b.css"]),
       None).
Proof.
  assert (Forall2
            (fun p ms => gathered disk defaults "*.css" identity p = Ok ms)
            [P; Q] [["/src/p/a.css"]; ["/src/q/a.css"; "/src/q/b.css"]]) as H.
  { repeat constructor; vm_compute; reflexivity. }
  split; [exact H|].
  apply (proj2 (scan_prints_in_order disk defaults "*.css" identity
                  [P; Q] _ (Proc ∅ "") H)).
  reflexivity.
Defined.

Lemma scan_dies_after_output_witness :
  Forall2 (fun p ms => gathered disk defaults "*.css" identity p = Ok ms)
    [P] [["/src/p/a.css"]]
  ∧ gathered disk defaults "*.css" identity
      {| Build := {| Dir := "/src/["; ImportPath := "r"; Goroot := false |} |}
    = Err ErrBadPattern
  ∧ gather.scan disk defaults "*.css" identity
      ([P] ++ {| Build := {| Dir := "/src/["; ImportPath := "r";
                             Goroot := false |} |} :: [Q])
      (Proc ∅ "")
    = (Proc ∅ (records nl ["/src/p/a.css"]), Some ErrBadPattern).
Proof.
  assert (Forall2
            (fun p ms => gathered disk defaults "*.css" identity p = Ok ms)
            [P] [["/src/p/a.css"]]) as H.
  { repeat constructor; vm_compute; reflexivity. }
  assert (gathered disk defaults "*.css" identity
            {| Build := {| Dir := "/src/["; ImportPath := "r";
                           Goroot := false |} |}
          = Err ErrBadPattern) as Hr by (vm_compute; reflexivity).
  split; [exact H|]. split; [exact Hr|].
  apply (proj2 (scan_dies_after_output disk defaults "*.css" identity
                  [P] _ [Q] _ ErrBadPattern (Proc ∅ "") H Hr)).
  reflexivity.
Defined.

(** ** [main] *)

Section command.

Variable Import : list string → list string → result (list Packages).
Variable ImportDeps : Package → result Packages.
Variable Rel : string → string → result string.


(** X21.  What [main] writes: when the packages are selected, the
    formatter is made, and matching, filtering and formatting succeed for
    every package, [main] is the printing loop, from the empty registry
    and the empty output, over the files of the packages in the order of
    the packages; without duplicate detection it writes every one of them
    followed by the separator, and ends well. *)
Theorem main_output (fs : FS) (w w' : world) (fl : flags) (pat : string)
  (args : list string) (ps : Packages) (f : pathFormatter)
  (mss : list (list string)) :
  packages Import ImportDeps fl args = Ok ps →
  mkFormatter Rel (rel fl) w = (Ok f, w') →
  Forall2 (fun p ms => gathered fs fl pat f p = Ok ms) ps mss →
  main Import ImportDeps Rel fs w fl (pat :: args)
  = (let (st, err) :=
       emit (faildup fl) (separator (print0 fl)) (concat mss) (Proc ∅ "") in
     (stdout st, err))
  ∧ (faildup fl = false →
     main Import ImportDeps Rel fs w fl (pat :: args)
     = (records (separator (print0 fl)) (concat mss), None)).
Proof.
  intros Hps Hf Hall. unfold main. simpl selectPattern. cbv iota beta.
  rewrite Hps, Hf.
  pose proof (scan_gathered fs fl pat f ps [] mss (Proc ∅ "") Hall) as Hscan.
  rewrite app_nil_r in Hscan. rewrite Hscan.
  split.
  - by destruct (emit (faildup fl) (separator (print0 fl)) (concat mss)
                   (Proc ∅ "")) as [st [e|]].
  - intros Hfd. rewrite Hfd, emit_unchecked. simpl.
    by rewrite append_nil_l.
Qed.

End command.


Lemma main_output_witness :
  packages Sample.Import Sample.ImportDeps defaults [] = Ok [P; Q]
  ∧ main Sample.Import Sample.ImportDeps Sample.Rel disk here defaults
      ["*.css"]
    = (records nl ["/src/p/a.css"; "/src/q/a.css"; "/src/q/b.css"], None).
Proof.
  assert (packages Sample.Import Sample.ImportDeps defaults [] = Ok [P; Q])
    as Hps by (vm_compute; reflexivity).
  split; [exact Hps|].
  apply (proj2 (main_output Sample.Import Sample.ImportDeps Sample.Rel
                  disk here here defaults "*.css" [] [P; Q] identity
                  [["/src/p/a.css"]; ["/src/q/a.css"; "/src/q/b.css"]]
                  Hps eq_refl
                  ltac:(repeat constructor; vm_compute; reflexivity))).
  reflexivity.
Defined.

(** ** [importDeps], when the provider fails *)

Section provider.

Variable ImportDeps : Package → result Packages.

Lemma depsLoop_answers (pre rest : Packages) (dss : list Packages) :
  Forall2 (fun q ds => ImportDeps q = Ok ds) pre dss →
  ∀ (deps : Packages) (log : list lookup),
    ∃ log', asked <$> log' = pre
      ∧ depsLoop ImportDeps (pre ++ rest) deps log
        = depsLoop ImportDeps rest (deps ++ concat dss) (log ++ log').
Proof.
  induction 1 as [|q ds pre dss Hq _ IH]; intros deps log.
  - exists []. by rewrite !app_nil_r.
  - simpl. rewrite Hq.
    destruct (IH (deps ++ ds) (log ++ [Lookup q deps])) as (log' & Hlog & ->).
    exists (Lookup q deps :: log').
    split; [by rewrite fmap_cons, Hlog|]. by rewrite <- !app_assoc.
Qed.

(** X1.  When the provider fails for a package, [importDeps] fails with
    that error and returns no package, whatever the packages before it
    were answered: the provider has then been asked about the packages
    before it and about it, and about none of those after it. *)
Theorem importDeps_first_failure (pre : Packages) (p : Package)
  (post : Packages) (dss : list Packages) (e : error) :
  Forall2 (fun q ds => ImportDeps q = Ok ds) pre dss →
  ImportDeps p = Err e →
  fst (importDeps ImportDeps (pre ++ p :: post)) = Err e
  ∧ asked <$> snd (importDeps ImportDeps (pre ++ p :: post)) = pre ++ [p].
Proof.
  intros Hpre Hp. rewrite importDeps_fst, importDeps_snd.
  destruct (depsLoop_answers pre (p :: post) dss Hpre [] [])
    as (log' & Hlog & ->).
  simpl. rewrite Hp. simpl. by rewrite fmap_app, Hlog.
Qed.

End provider.

Lemma importDeps_first_failure_witness :
  (if String.eqb (path Q) "q" then Err (ErrorString "cannot find package q")
   else Ok [Q])
  = Err (ErrorString "cannot find package q")
  ∧ fst (importDeps
           (fun q => if String.eqb (path q) "q"
                     then Err (ErrorString "cannot find package q")
                     else Ok [Q])
           ([P] ++ Q :: [P]))
    = Err (ErrorString "cannot find package q")
  ∧ asked <$> snd (importDeps
           (fun q => if String.eqb (path q) "q"
                     then Err (ErrorString "cannot find package q")
                     else Ok [Q])
           ([P] ++ Q :: [P]))
      = [P] ++ [Q].
Proof.
  split; [reflexivity|].
  apply (importDeps_first_failure _ [P] Q [P] [[Q]]).
  - repeat constructor.
  - reflexivity.
Defined.

(** ** [match] in a directory *)

Lemma globNames_wellFormed (dir pattern : string) (names m : list string) :
  Matcher.wellFormed pattern →
  globNames dir pattern names m
  = Ok (m ++ ((fun n => Join [dir; n]) <$>
              List.filter (matches pattern) names)).
Proof.
  intros Hwf. revert m. induction names as [|n names IH]; intros m; simpl.
  - by rewrite app_nil_r.
  - destruct (Match pattern n) as [matched|e] eqn:Hn;
      [|by destruct (Hwf _ _ Hn)].
    unfold matches at 1. rewrite Hn. simpl. rewrite IH.
    destruct matched; [|done]. by rewrite <- app_assoc.
Qed.

Lemma Match_child_empty (dir pattern : string) :
  hasMeta dir = false → Matcher.wellFormed pattern →
  ∃ b, Match (Matcher.child dir pattern) "" = Ok b.
Proof.
  intros Hdir Hwf.
  destruct (child_literal dir pattern Hdir) as (lit & -> & Hlit).
  destruct (Match (lit +:+ pattern) "") as [b|e] eqn:Hm; [by exists b|].
  apply Match_empty_literal in Hm; [|done]. by destruct (Hwf _ _ Hm).
Qed.

Lemma wellFormed_plain (pattern : string) :
  hasMeta pattern = false → Matcher.wellFormed pattern.
Proof.
  intros Hp. apply wellFormed_Match_empty. intros e He.
  rewrite <- (append_nil_r pattern) in He.
  by apply Match_empty_literal in He.
Qed.

(** X2.  In a clean directory whose path has no magic character, for a
    well-formed pattern of a single element with a magic character, and
    when the directory can be read: [match] returns the paths of all the
    names in the directory that the pattern matches, in the order of the
    sorted names. *)
Theorem match_lists_directory (fs : FS) (dir pattern : string)
  (names : list string) :
  Clean dir = dir → hasMeta dir = false →
  Matcher.singleElement pattern = true → hasMeta pattern = true →
  Matcher.wellFormed pattern →
  Stat fs dir = Some true → Readdirnames fs dir = Some names →
  match_ fs dir pattern
  = Ok ((fun n => Join [dir; n]) <$>
        List.filter (matches pattern) (merge_sort String.le names)).
Proof.
  intros Hclean Hdir Hp Hmeta Hwf Hstat Hread.
  rewrite match_direct by done.
  destruct (Match_child_empty dir pattern Hdir Hwf) as [b ->].
  rewrite Hmeta. simpl. unfold glob. rewrite Hstat, Hread.
  by rewrite globNames_wellFormed.
Qed.

(** X3.  In a clean directory whose path has no magic character, for a
    pattern of a single element without magic character, [match] does not
    read the directory and does not fail: it returns the path of that name
    in the directory when [Lstat] finds it, and nothing when not. *)
Theorem match_plain_name (fs : FS) (dir pattern : string) :
  Clean dir = dir → hasMeta dir = false →
  Matcher.singleElement pattern = true → hasMeta pattern = false →
  match_ fs dir pattern
  = Ok (if Lstat fs (Join [dir; pattern]) then [Join [dir; pattern]] else []).
Proof.
  intros Hclean Hdir Hp Hmeta. rewrite match_direct by done.
  destruct (Match_child_empty dir pattern Hdir (wellFormed_plain _ Hmeta))
    as [b ->].
  rewrite Hmeta, Join_single by done. simpl.
  by destruct (Lstat fs (Matcher.child dir pattern)).
Qed.

(** X22.  In a clean directory whose path has no magic character, for a
    well-formed pattern of a single element with a magic character:
    when the directory is not a directory, or cannot be examined or read,
    [match] reports no error and returns nothing. *)
Theorem match_unreadable (fs : FS) (dir pattern : string) :
  Clean dir = dir → hasMeta dir = false →
  Matcher.singleElement pattern = true → hasMeta pattern = true →
  Matcher.wellFormed pattern →
  Stat fs dir ≠ Some true ∨ Readdirnames fs dir = None →
  match_ fs dir pattern = Ok [].
Proof.
  intros Hclean Hdir Hp Hmeta Hwf Hio.
  rewrite match_direct by done.
  destruct (Match_child_empty dir pattern Hdir Hwf) as [b ->].
  rewrite Hmeta. simpl. unfold glob.
  destruct (Stat fs dir) as [[]|]; [|done|done].
  destruct Hio as [Hs|Hr]; [done|by rewrite Hr].
Qed.

Lemma match_lists_directory_witness :
  Clean "/src/q" = "/src/q" ∧ hasMeta "/src/q" = false
  ∧ Matcher.singleElement "*.css" = true ∧ hasMeta "*.css" = true
  ∧ Matcher.wellFormed "*.css"
  ∧ Stat disk "/src/q" = Some true
  ∧ Readdirnames disk "/src/q" = Some ["b.css"; "a.css"]
  ∧ match_ disk "/src/q" "*.css" = Ok ["/src/q/a.css"; "/src/q/b.css"].
Proof.
  assert (Matcher.wellFormed "*.css") as Hwf
    by (eapply wellFormed_computed; reflexivity).
  repeat (split; [reflexivity || exact Hwf|]).
  apply (match_lists_directory disk "/src/q" "*.css" ["b.css"; "a.css"]
           eq_refl eq_refl eq_refl eq_refl Hwf eq_refl eq_refl).
Defined.

Lemma match_plain_name_witness :
  Clean "/src/p" = "/src/p" ∧ hasMeta "/src/p" = false
  ∧ Matcher.singleElement "a.css" = true ∧ hasMeta "a.css" = false
  ∧ match_ disk "/src/p" "a.css" = Ok ["/src/p/a.css"]
  ∧ match_ disk "/src/p" "b.css" = Ok [].
Proof.
  do 4 (split; [reflexivity|]).
  split.
  - apply (match_plain_name disk "/src/p" "a.css"); reflexivity.
  - apply (match_plain_name disk "/src/p" "b.css"); reflexivity.
Defined.

Lemma match_unreadable_witness :
  Clean "/src/p/a.css" = "/src/p/a.css" ∧ hasMeta "/src/p/a.css" = false
  ∧ Matcher.singleElement "*" = true ∧ hasMeta "*" = true
  ∧ Matcher.wellFormed "*"
  ∧ Stat disk "/src/p/a.css" = Some false
  ∧ match_ disk "/src/p/a.css" "*" = Ok [].
Proof.
  assert (Matcher.wellFormed "*") as Hwf
    by (eapply wellFormed_computed; reflexivity).
  repeat (split; [reflexivity || exact Hwf|]).
  apply (match_unreadable disk "/src/p/a.css" "*"
           eq_refl eq_refl eq_refl eq_refl Hwf).
  left. vm_compute. discriminate.
Defined.

(** ** What is listed for a package *)

Lemma stripTrailingSeps_element (x n : string) :
  n ≠ "" → containsByte Separator n = false →
  stripTrailingSeps (x +:+ n) = x +:+ n.
Proof.
  intros Hn Hsep.
  assert (stripTrailingSeps n = n) as Hbase.
  { clear x. induction n as [|c n IH]; [done|].
    simpl in Hsep. apply orb_false_elim in Hsep as [Hc Hsep].
    cbn [stripTrailingSeps]. destruct n as [|c' n].
    - simpl. unfold IsPathSeparator. by rewrite Hc.
    - rewrite IH by done. done. }
  induction x as [|c x IH]; [by rewrite append_nil_l|].
  rewrite append_cons. cbn [stripTrailingSeps]. rewrite IH.
  destruct (x +:+ n) eqn:Hx; [|done].
  destruct x; [|done]. rewrite append_nil_l in Hx. by subst.
Qed.

Lemma Base_last (x n : string) :
  n ≠ "" → containsByte Separator n = false →
  x = "" ∨ (∃ x', x = x' +:+ String Separator "") →
  Base (x +:+ n) = n.
Proof.
  intros Hn Hsep Hx. unfold Base.
  assert (isEmpty (x +:+ n) = false) as ->.
  { destruct x; [|done]. rewrite append_nil_l. by destruct n. }
  cbv zeta. rewrite stripTrailingSeps_element by done.
  assert (cutLastSep (x +:+ n) = (x, n)) as ->.
  { destruct Hx as [->|[x' ->]].
    - rewrite append_nil_l. by apply cutLastSep_element.
    - rewrite append_assoc. by apply cutLastSep_sep. }
  simpl. destruct n; [by destruct Hn|done].
Qed.

Lemma Base_child (dir n : string) :
  Matcher.singleElement n = true → Base (Matcher.child dir n) = n.
Proof.
  intros (Hn & Hsep & _)%singleElement_inv.
  unfold Matcher.child. destruct (String.eqb dir ".").
  - rewrite <- (append_nil_l n) at 1. apply Base_last; auto.
  - destruct (String.eqb dir "/").
    + apply Base_last; [done..|]. right. by exists "".
    + rewrite <- append_assoc. apply Base_last; [done..|]. right.
      by exists dir.
Qed.

Lemma filter_fmap {A B} (f : B → bool) (g : A → B) (l : list A) :
  List.filter f (g <$> l) = g <$> List.filter (fun x => f (g x)) l.
Proof.
  induction l as [|x l IH]; [done|]. rewrite fmap_cons. simpl.
  destruct (f (g x)); [rewrite fmap_cons|]; by rewrite IH.
Qed.

Lemma filter_ext_Forall {A} (f g : A → bool) (l : list A) :
  Forall (fun x => f x = g x) l → List.filter f l = List.filter g l.
Proof.
  induction 1 as [|x l Hx _ IH]; [done|]. simpl. by rewrite Hx, IH.
Qed.

Lemma exclusions_wellFormed (dot : bool) (exclude : string)
  (ms : list string) :
  Matcher.wellFormed exclude →
  exclusions dot exclude ms
  = Ok (List.filter
          (fun m => (dot || negb (startsWith "." (Base m)))
                    && negb (skips exclude m)) ms).
Proof.
  intros Hwf. unfold exclusions. destruct dot; simpl.
  - by apply filter_wellFormed.
  - rewrite (filter_wellFormed _ _ wellFormed_dotfile). simpl.
    rewrite (filter_wellFormed _ _ Hwf), filter_andb. f_equal.
    apply List.filter_ext. intros m. by rewrite skips_dotfile.
Qed.

Lemma bind_unit {A B} (a : A) (f : A → result B) : Ok a ≫= f = f a.
Proof. reflexivity. Qed.

Lemma Forall2_identity (paths : list string) :
  Forall2 (fun p s => identity p = Ok s) paths paths.
Proof. induction paths; by constructor. Qed.

(** X24.  What [main] lists for a package without a base to format
    against: when the directory of the package is clean, has no magic
    character in its path and can be read, and the pattern is a
    well-formed single element with a magic character and the exclusion
    glob is well formed, the files listed are those of the names in the
    directory that the pattern matches, that do not begin with a dot
    unless dot files are asked for, and that the exclusion glob does not
    match, in the order of the sorted names. *)
Theorem gathered_lists (fs : FS) (fl : flags) (pat : string) (p : Package)
  (names : list string) :
  Clean (Dir (Build p)) = Dir (Build p) → hasMeta (Dir (Build p)) = false →
  Matcher.singleElement pat = true → hasMeta pat = true →
  Matcher.wellFormed pat → Matcher.wellFormed (exclude fl) →
  Stat fs (Dir (Build p)) = Some true →
  Readdirnames fs (Dir (Build p)) = Some names →
  Forall (fun n => Matcher.singleElement n = true) names →
  gathered fs fl pat identity p
  = Ok ((fun n => Join [Dir (Build p); n]) <$>
        List.filter
          (fun n => matches pat n
                    && (dot fl || negb (startsWith "." n))
                    && negb (matches (exclude fl) n))
          (merge_sort String.le names)).
Proof.
  intros Hclean Hdir Hp Hmeta Hwf Hex Hstat Hread Hnames.
  unfold gathered. rewrite match_direct by done.
  destruct (Match_child_empty _ pat Hdir Hwf) as [b ->].
  rewrite Hmeta. simpl. unfold glob. rewrite Hstat, Hread.
  rewrite globNames_wellFormed by done. rewrite app_nil_l, bind_unit.
  rewrite exclusions_wellFormed by done. rewrite bind_unit.
  apply formatLoop_Ok. eexists. split; [apply Forall2_identity|].
  rewrite app_nil_l, filter_fmap, filter_andb. f_equal.
  apply filter_ext_Forall.
  assert (Forall (fun n => Matcher.singleElement n = true)
            (merge_sort String.le names)) as Hsorted.
  { by rewrite merge_sort_Permutation. }
  eapply Forall_impl; [exact Hsorted|]. intros n Hn. cbv beta.
  unfold skips. rewrite Join_single, Base_child by done.
  fold (matches (exclude fl) n). by rewrite andb_assoc.
Qed.

Lemma gathered_lists_witness :
  Matcher.wellFormed "*" ∧ Matcher.wellFormed "a*"
  ∧ Readdirnames disk "/src/p" = Some ["sub"; "a.css"; ".hidden.css"]
  ∧ gathered disk
      {| tags := []; stdlib := false; noDeps := false; exclude := "a*";
         rel := ""; print0 := false; dot := true; faildup := false |}
      "*" identity P
    = Ok ["/src/p/.hidden.css"; "/src/p/sub"].
Proof.
  assert (Matcher.wellFormed "*") as Hpat
    by (eapply wellFormed_computed; reflexivity).
  assert (Matcher.wellFormed "a*") as Hex
    by (eapply wellFormed_computed; reflexivity).
  split; [exact Hpat|]. split; [exact Hex|]. split; [reflexivity|].
  apply (gathered_lists disk
           {| tags := []; stdlib := false; noDeps := false; exclude := "a*";
              rel := ""; print0 := false; dot := true; faildup := false |}
           "*" P ["sub"; "a.css"; ".hidden.css"]
           eq_refl eq_refl eq_refl eq_refl Hpat Hex eq_refl eq_refl).
  repeat constructor.
Defined.

(** ** The output, read back *)

Lemma record_inj (c : ascii) (m m' rest rest' : string) :
  containsByte c m = false → containsByte c m' = false →
  m +:+ String c rest = m' +:+ String c rest' → m = m' ∧ rest = rest'.
Proof.
  revert m'. induction m as [|a m IH]; intros [|a' m']; simpl;
    rewrite ?append_cons, ?append_nil_l.
  - by intros _ _ [= ->].
  - intros _ [Ha _]%orb_false_elim [= -> _].
    by rewrite Ascii.eqb_refl in Ha.
  - intros [Ha _]%orb_false_elim _ [= -> _].
    by rewrite Ascii.eqb_refl in Ha.
  - intros [_ Hm]%orb_false_elim [_ Hm']%orb_false_elim [= -> Heq].
    by destruct (IH m' Hm Hm' Heq) as [-> ->].
Qed.

(** X25.  What [main] writes can be read back: each path is followed by
    the separator, a line feed or, with [-print0], a NUL, and when no
    path holds that byte, two lists of paths that are written the same are
    the same list. *)
Theorem records_read_back (print0 : bool) (ms ms' : list string) :
  (∃ c, separator print0 = String c ""
        ∧ c = (if print0 then "000" else "010")%char)
  ∧ ∀ c, separator print0 = String c "" →
      Forall (fun m => containsByte c m = false) ms →
      Forall (fun m => containsByte c m = false) ms' →
      records (separator print0) ms = records (separator print0) ms' →
      ms = ms'.
Proof.
  split; [destruct print0; eexists; split; reflexivity|].
  intros c ->. revert ms'.
  induction ms as [|m ms IH]; intros [|m' ms'] Hms Hms'; simpl.
  - done.
  - intros H. symmetry in H. destruct m'; discriminate H.
  - intros H. destruct m; discriminate H.
  - inversion Hms as [|? ? Hm Hrest]; subst.
    inversion Hms' as [|? ? Hm' Hrest']; subst.
    change (String c "" +:+ ?s) with (String c s).
    intros [-> Heq]%record_inj; [|done..]. f_equal. by apply IH.
Qed.

Lemma records_read_back_witness :
  separator true = String "000" ""
  ∧ Forall (fun m => containsByte "000" m = false)
      ["/src/p/a.css"; "/src/q/b.css"]
  ∧ ∀ ms', Forall (fun m => containsByte "000" m = false) ms' →
      records (separator true) ["/src/p/a.css"; "/src/q/b.css"]
      = records (separator true) ms' →
      ["/src/p/a.css"; "/src/q/b.css"] = ms'.
Proof.
  assert (Forall (fun m => containsByte "000" m = false)
            ["/src/p/a.css"; "/src/q/b.css"]) as H
    by (repeat constructor).
  split; [reflexivity|]. split; [exact H|]. intros ms' Hms'.
  apply (proj2 (records_read_back true ["/src/p/a.css"; "/src/q/b.css"] ms')
           "000"%char eq_refl H Hms').
Defined.
